(** * Belay.NET protocol debug scripts: a shallow embedding

    The Python scripts of the repository replicate, by hand, the raw-REPL
    protocol engine: a poll loop that accumulates bytes until a completion
    condition holds or a deadline elapses, best-effort drains, and the
    chunking arithmetic of the file transfer.  This file embeds those loops
    as Rocq functions over an explicit channel and clock, and states the
    properties of the protocol specification against them. *)

From Stdlib Require Import ZArith NArith List Bool Lia String Ascii.
From Stdlib Require Import Init.Byte.
Import ListNotations.

Local Open Scope N_scope.

(** ** Bytes, text and Python's [in] *)

(** A Python [bytes] / [bytearray] value. *)
Definition bytes := list byte.

(** A Python [str]: a sequence of Unicode code points. *)
Definition text := list N.

(** A byte-string literal such as [b"raw REPL"]. *)
Definition b (s : string) : bytes := list_byte_of_string s.

(** The code points of an ASCII byte string. *)
Definition codes (bs : bytes) : text := map Byte.to_N bs.

(** A string literal such as ["raw REPL"]. *)
Definition lit (s : string) : text := codes (b s).

(** [s.startswith(p)] on sequences of code points. *)
Fixpoint starts_with (p s : text) : bool :=
  match p, s with
  | [], _ => true
  | _ :: _, [] => false
  | a :: p', c :: s' => (a =? c) && starts_with p' s'
  end.

(** [p in s] for two strings: [p] occurs in [s] as a contiguous run. *)
Fixpoint str_in (p s : text) : bool :=
  starts_with p s ||
  match s with
  | [] => false
  | _ :: s' => str_in p s'
  end.

(** [s.endswith(p)]. *)
Definition ends_with (p s : text) : bool :=
  starts_with (rev p) (rev s).

(** The relational reading of "the buffer contains the substring". *)
Definition contains {A : Type} (p s : list A) : Prop :=
  exists pre suf, s = pre ++ p ++ suf.

(** "The tail of the buffer is [p]". *)
Definition has_tail {A : Type} (p s : list A) : Prop :=
  exists pre, s = pre ++ p.

(** ** [bytes.decode('utf-8', errors='replace')]

    Every script decodes the accumulated buffer with the lossy UTF-8 codec
    before it tests it.  The codec replaces each maximal ill-formed prefix
    by U+FFFD and resumes at the first byte it could not consume; a sequence
    cut short by the end of the input is replaced as a whole. *)

Definition REPLACEMENT : N := 0xFFFD.

Definition is_continuation (c : N) : bool := (0x80 <=? c) && (c <=? 0xBF).

(** The second byte of a three-byte sequence: E0 excludes overlong forms,
    ED excludes the surrogates. *)
Definition second_of_3 (c0 c1 : N) : bool :=
  is_continuation c1 &&
  negb (if c1 <? 0xA0 then c0 =? 0xE0 else c0 =? 0xED).

(** The second byte of a four-byte sequence: F0 excludes overlong forms,
    F4 excludes code points above U+10FFFF. *)
Definition second_of_4 (c0 c1 : N) : bool :=
  is_continuation c1 &&
  negb (if c1 <? 0x90 then c0 =? 0xF0 else c0 =? 0xF4).

Definition cp2 (c0 c1 : N) : N := (c0 - 0xC0) * 64 + (c1 - 0x80).
Definition cp3 (c0 c1 c2 : N) : N :=
  (c0 - 0xE0) * 4096 + (c1 - 0x80) * 64 + (c2 - 0x80).
Definition cp4 (c0 c1 c2 c3 : N) : N :=
  (c0 - 0xF0) * 262144 + (c1 - 0x80) * 4096 + (c2 - 0x80) * 64 + (c3 - 0x80).

Fixpoint decode (bs : bytes) : text :=
  match bs with
  | [] => []
  | b0 :: r0 =>
    let c0 := Byte.to_N b0 in
    if c0 <? 0x80 then c0 :: decode r0
    else if c0 <? 0xC2 then REPLACEMENT :: decode r0
    else if c0 <? 0xE0 then
      match r0 with
      | [] => [REPLACEMENT]
      | b1 :: r1 =>
        let c1 := Byte.to_N b1 in
        if is_continuation c1 then cp2 c0 c1 :: decode r1
        else REPLACEMENT :: decode r0
      end
    else if c0 <? 0xF0 then
      match r0 with
      | [] => [REPLACEMENT]
      | b1 :: r1 =>
        let c1 := Byte.to_N b1 in
        if second_of_3 c0 c1 then
          match r1 with
          | [] => [REPLACEMENT]
          | b2 :: r2 =>
            let c2 := Byte.to_N b2 in
            if is_continuation c2 then cp3 c0 c1 c2 :: decode r2
            else REPLACEMENT :: decode r1
          end
        else REPLACEMENT :: decode r0
      end
    else if c0 <? 0xF5 then
      match r0 with
      | [] => [REPLACEMENT]
      | b1 :: r1 =>
        let c1 := Byte.to_N b1 in
        if second_of_4 c0 c1 then
          match r1 with
          | [] => [REPLACEMENT]
          | b2 :: r2 =>
            let c2 := Byte.to_N b2 in
            if is_continuation c2 then
              match r2 with
              | [] => [REPLACEMENT]
              | b3 :: r3 =>
                let c3 := Byte.to_N b3 in
                if is_continuation c3 then cp4 c0 c1 c2 c3 :: decode r3
                else REPLACEMENT :: decode r2
              end
            else REPLACEMENT :: decode r1
          end
        else REPLACEMENT :: decode r0
      end
    else REPLACEMENT :: decode r0
  end.

(** ** Completion conditions *)

(** What the [if]/[elif] of [read_with_timeout] (debug_csharp_protocol.py,
    lines 24-29) decides about the decoded buffer. *)
Inductive completion : Type :=
  | RawReplEntry      (* "Found complete Raw REPL entry message" *)
  | ExecutionOutput   (* "Found execution output" *)
  | Incomplete.

(** ["raw REPL" in text and ("CTRL-B" in text or ">" in text)] *)
Definition raw_repl_complete (t : text) : bool :=
  str_in (lit "raw REPL") t &&
  (str_in (lit "CTRL-B") t || str_in (lit ">") t).

(** ["OK" in text and ("\x04" in text or ">" in text)] *)
Definition execution_complete (t : text) : bool :=
  str_in (lit "OK") t && (str_in [0x04] t || str_in (lit ">") t).

Definition check_completion (t : text) : completion :=
  if raw_repl_complete t then RawReplEntry
  else if execution_complete t then ExecutionOutput
  else Incomplete.

(** test_raw_repl_flow.py, line 47, tests the bytes themselves:
    [b">" in output and b"raw REPL" in output]. *)
Definition raw_repl_flow_complete (output : bytes) : bool :=
  str_in (lit ">") (codes output) && str_in (lit "raw REPL") (codes output).

(** [s.replace(chr(c), r)] *)
Definition replace_char (c : N) (r : text) (s : text) : text :=
  flat_map (fun x => if x =? c then r else [x]) s.

(** test_subprocess_fix.py, lines 88-97: the verdict of [test_csharp_style]
    on the bytes read after submitting ["1+1"]. *)
Definition test_csharp_style_verdict (result : bytes) : bool :=
  let result_text :=
    replace_char 10 [0x5C; 0x6E]
      (replace_char 13 [0x5C; 0x72] (decode result)) in
  str_in (lit "OK") result_text && str_in (lit "2") result_text.

(** quick_test.py, line 27: [prompt.endswith(">")]. *)
Definition prompt_ends_ok (prompt : text) : bool := ends_with (lit ">") prompt.

(** ** The channel and the clock

    The scripts read a pipe with [proc.stdout.read(n)] and consult
    [time.time()].  A channel is the sequence of results of the successive
    read calls, each with the wall-clock time the call took (a read on a
    blocking pipe returns only once a byte is there); time is counted in
    milliseconds. *)

Inductive exn : Type :=
  | BlockingIOError   (* nothing to read on a non-blocking descriptor *)
  | OSError.          (* any other failure of the channel *)

Inductive read_result : Type :=
  | Returned (data : bytes)   (* [None] and [b""] are [Returned []] *)
  | Raised (e : exn).

Record event : Type := { outcome : read_result; latency : N }.

Definition channel : Type := nat -> event.

Record world : Type := { clock : N; polls : nat }.

(** One call of [proc.stdout.read]. *)
Definition poll (ch : channel) (w : world) : read_result * world :=
  let e := ch (polls w) in
  (outcome e, {| clock := clock w + latency e; polls := S (polls w) |}).

(** [sleep(0.01)] *)
Definition POLL_INTERVAL : N := 10.

Definition sleep (w : world) : world :=
  {| clock := clock w + POLL_INTERVAL; polls := polls w |}.

(** debug_csharp_protocol.py, lines 9-35.  The loop sleeps only when the
    read brought nothing or raised; a bare [except:] catches every error.
<<
    while (time.time() - start_time) < timeout_seconds:
        try:
            data = proc.stdout.read(256)
            if data:
                buffer.extend(data)
                text = buffer.decode('utf-8', errors='replace')
                if <raw REPL entry>: break
                elif <execution output>: break
            else:
                await asyncio.sleep(0.01)
        except:
            await asyncio.sleep(0.01)
    return buffer.decode('utf-8', errors='replace')
>> *)
Fixpoint read_loop (fuel : nat) (ch : channel) (start_time timeout_ms : N)
    (buffer : bytes) (w : world) : option (text * world) :=
  match fuel with
  | O => None
  | S fuel' =>
    if clock w - start_time <? timeout_ms then
      match poll ch w with
      | (Returned [], w1) =>
          read_loop fuel' ch start_time timeout_ms buffer (sleep w1)
      | (Returned data, w1) =>
          let buffer' := buffer ++ data in
          match check_completion (decode buffer') with
          | Incomplete => read_loop fuel' ch start_time timeout_ms buffer' w1
          | _ => Some (decode buffer', w1)
          end
      | (Raised _, w1) =>
          read_loop fuel' ch start_time timeout_ms buffer (sleep w1)
      end
    else Some (decode buffer, w)
  end.

Definition read_with_timeout (fuel : nat) (ch : channel) (timeout_ms : N)
    (w : world) : option (text * world) :=
  read_loop fuel ch (clock w) timeout_ms [] w.

(** What a loop that lets some errors through hands to its caller. *)
Inductive result (A : Type) : Type :=
  | Done (a : A)
  | Propagated (e : exn).
Arguments Done {A} a.
Arguments Propagated {A} e.

(** test_duplex_stream.py, lines 76-88: a two-second read on a descriptor
    put in non-blocking mode; only [BlockingIOError] is caught, and every
    iteration that does not break sleeps. *)
Fixpoint duplex_loop (fuel : nat) (ch : channel) (start_time : N)
    (response : bytes) (w : world) : option (result bytes * world) :=
  match fuel with
  | O => None
  | S fuel' =>
    if clock w - start_time <? 2000 then
      match poll ch w with
      | (Returned [], w1) => duplex_loop fuel' ch start_time response (sleep w1)
      | (Returned data, w1) =>
          let response' := response ++ data in
          if raw_repl_complete (decode response') then Some (Done response', w1)
          else duplex_loop fuel' ch start_time response' (sleep w1)
      | (Raised BlockingIOError, w1) =>
          duplex_loop fuel' ch start_time response (sleep w1)
      | (Raised e, w1) => Some (Propagated e, w1)
      end
    else Some (Done response, w)
  end.

Definition test_duplex_approach_read (fuel : nat) (ch : channel) (w : world)
    : option (result bytes * world) :=
  duplex_loop fuel ch (clock w) [] w.

(** test_subprocess_fix.py, lines 59-72: the raw-mode entry read of
    [test_csharp_style], one second long; [except: pass], then the sleep. *)
Fixpoint csharp_style_loop (fuel : nat) (ch : channel) (start_time : N)
    (response : bytes) (w : world) : option (bytes * world) :=
  match fuel with
  | O => None
  | S fuel' =>
    if clock w - start_time <? 1000 then
      match poll ch w with
      | (Returned [], w1) =>
          csharp_style_loop fuel' ch start_time response (sleep w1)
      | (Returned data, w1) =>
          let response' := response ++ data in
          if str_in (lit "raw REPL") (decode response') then Some (response', w1)
          else csharp_style_loop fuel' ch start_time response' (sleep w1)
      | (Raised _, w1) =>
          csharp_style_loop fuel' ch start_time response (sleep w1)
      end
    else Some (response, w)
  end.

Definition test_csharp_style_read (fuel : nat) (ch : channel) (w : world)
    : option (bytes * world) :=
  csharp_style_loop fuel ch (clock w) [] w.

(** The bytes the reads numbered [from], ..., [from + n - 1] returned. *)
Fixpoint received (ch : channel) (from n : nat) : bytes :=
  match n with
  | O => []
  | S n' =>
    match outcome (ch from) with
    | Returned data => data ++ received ch (S from) n'
    | Raised _ => received ch (S from) n'
    end
  end.

(** The channel with every raised error turned into an empty read. *)
Definition hush (ch : channel) : channel :=
  fun i =>
    match outcome (ch i) with
    | Raised _ => {| outcome := Returned []; latency := latency (ch i) |}
    | Returned _ => ch i
    end.

(** A channel given by the first reads, idle afterwards. *)
Definition script (evs : list event) (idle : event) : channel :=
  fun i => nth i evs idle.

Definition nothing : event := {| outcome := Returned []; latency := 0 |}.
Definition silent : channel := fun _ => nothing.
Definition now (data : bytes) : event := {| outcome := Returned data; latency := 0 |}.
Definition after (ms : N) (data : bytes) : event :=
  {| outcome := Returned data; latency := ms |}.
Definition failing (e : exn) : event := {| outcome := Raised e; latency := 0 |}.
Definition epoch : world := {| clock := 0; polls := 0 |}.

(** ** Slicing *)

(** The slices [data[0:n]], [data[n:2n]], ... of a payload. *)
Fixpoint slices (fuel n : nat) (data : bytes) : list bytes :=
  match fuel with
  | O => []
  | S fuel' =>
    match data with
    | [] => []
    | _ :: _ => firstn n data :: slices fuel' n (skipn n data)
    end
  end.

Definition slice_payload (n : nat) (data : bytes) : list bytes :=
  slices (List.length data) n data.

(** ** Best-effort drain *)

(** A pipe at the moment it is drained: the bytes that are waiting, and
    what a read does once nothing is waiting. *)
Inductive idle_behaviour : Type :=
  | ReadsNothing   (* the read returns [None] or [b""] *)
  | WouldBlock     (* the read raises [BlockingIOError] *)
  | Fails.         (* the read raises another error: the channel is gone *)

Record pipe : Type := { pending : bytes; idle : idle_behaviour }.

Definition idle_event (i : idle_behaviour) : event :=
  match i with
  | ReadsNothing => nothing
  | WouldBlock => failing BlockingIOError
  | Fails => failing OSError
  end.

(** The reads of at most [size] bytes that a drained pipe answers. *)
Definition channel_of (size : nat) (p : pipe) : channel :=
  script (map now (slice_payload size (pending p))) (idle_event (idle p)).

(** debug_nonblocking.py, lines 32-43.
<<
    data = b""
    try:
        while True:
            chunk = proc.stdout.read(1024)
            if not chunk:
                break
            data += chunk
    except BlockingIOError:
        pass
    return data.decode('utf-8', errors='replace') if data else ""
>> *)
Fixpoint drain_loop (fuel : nat) (ch : channel) (data : bytes) (w : world)
    : option (result bytes * world) :=
  match fuel with
  | O => None
  | S fuel' =>
    match poll ch w with
    | (Returned [], w1) => Some (Done data, w1)
    | (Returned chunk, w1) => drain_loop fuel' ch (data ++ chunk) w1
    | (Raised BlockingIOError, w1) => Some (Done data, w1)
    | (Raised e, w1) => Some (Propagated e, w1)
    end
  end.

Definition read_available (fuel : nat) (ch : channel) (w : world)
    : option (result text * world) :=
  match drain_loop fuel ch [] w with
  | Some (Done data, w') =>
      Some (Done (match data with [] => [] | _ :: _ => decode data end), w')
  | Some (Propagated e, w') => Some (Propagated e, w')
  | None => None
  end.

(** ** Chunk sizes *)

(** quick_test.py, lines 44-52: the divisor chosen for a file size. *)
Definition chunk_size_for (size : N) : N :=
  if size <=? 256 then 64
  else if size <=? 1024 then 256
  else 512.

(** quick_test.py, lines 44-54: [(chunks, total_time)]. *)
Definition simulated_transfer (size : N) : N * N :=
  let chunks := size / chunk_size_for size in
  let time_per_chunk :=
    if size <=? 256 then 10 else if size <=? 1024 then 8 else 6 in
  (chunks, chunks * time_per_chunk).

(** test_hardware.py, line 69: "Simplified adaptive logic". *)
Definition simplified_chunk_size (size : N) : N :=
  if size <=? 256 then 64 else 256.

(** test_hardware.py, line 70:
    [len(encoded) // chunk_size + (1 if len(encoded) % chunk_size else 0)]. *)
Definition chunk_count (encoded_len chunk_size : N) : N :=
  encoded_len / chunk_size +
  (if encoded_len mod chunk_size =? 0 then 0 else 1).

Definition MIN_CHUNK : N := 64.
Definition MAX_CHUNK : N := 512.

Record ChunkState : Type := { chunk_size : N; last_throughput : N }.

(** What the transfer learns when a chunk's execute cycle ends. *)
Inductive chunk_report : Type :=
  | Acknowledged (throughput : N)
  | ChunkFailed
  | MemoryErrorClassified.

Section ChunkTransferManager.

(** The configured throughput threshold, and by how much one adjustment
    moves the size: the specification fixes neither. *)
Variable threshold : N.
Variable grow_step shrink_step : N -> N.

(** Modelled from the spec: the transfer manager's chunk-size adaptation
    is not among the scripts (only the size classes are, in quick_test.py).
    "Chunk size selected by payload size class, stored in the session's
    ChunkState." *)
Definition initialize (payload_size : N) : ChunkState :=
  {| chunk_size := chunk_size_for payload_size; last_throughput := 0 |}.

(** Modelled from the spec: "grow chunk size (bounded at 512 B)". *)
Definition grow (size : N) : N := N.min MAX_CHUNK (grow_step size).

(** Modelled from the spec: "shrink chunk size (bounded at 64 B)". *)
Definition shrink (size : N) : N := N.max MIN_CHUNK (shrink_step size).

(** Modelled from the spec: the adjustment made after each chunk, "if
    throughput exceeded a configured threshold, grow; if the chunk failed
    or the classified error was MemoryError, shrink". *)
Definition after_chunk (st : ChunkState) (r : chunk_report) : ChunkState :=
  match r with
  | Acknowledged throughput =>
      {| chunk_size := if threshold <? throughput
                       then grow (chunk_size st) else chunk_size st;
         last_throughput := throughput |}
  | ChunkFailed | MemoryErrorClassified =>
      {| chunk_size := shrink (chunk_size st);
         last_throughput := last_throughput st |}
  end.

(** The state after a transfer has seen the given reports in turn. *)
Definition chunk_state_after (payload_size : N) (reports : list chunk_report)
    : ChunkState :=
  fold_left after_chunk reports (initialize payload_size).

End ChunkTransferManager.

(** ** The base64 chunk path *)

Definition alphabet : bytes :=
  b "ABCDEFGHIJKLMNOPQRSTUVWXYZabcdefghijklmnopqrstuvwxyz0123456789+/".

Definition PAD : byte := x3d.

Definition b64char (v : N) : byte := nth (N.to_nat v) alphabet PAD.

Definition byte_of (n : N) : byte :=
  match Byte.of_N n with
  | Some x => x
  | None => x00
  end.

(** [base64.b64encode] (test_hardware.py, line 66): three bytes become four
    characters; a final group of one or two bytes is padded with [=]. *)
Fixpoint b64encode (data : bytes) : bytes :=
  match data with
  | [] => []
  | [x] =>
    let n0 := Byte.to_N x in
    [b64char (n0 / 4); b64char (n0 mod 4 * 16); PAD; PAD]
  | [x; y] =>
    let n0 := Byte.to_N x in
    let n1 := Byte.to_N y in
    [b64char (n0 / 4); b64char (n0 mod 4 * 16 + n1 / 16);
     b64char (n1 mod 16 * 4); PAD]
  | x :: y :: z :: rest =>
    let n0 := Byte.to_N x in
    let n1 := Byte.to_N y in
    let n2 := Byte.to_N z in
    b64char (n0 / 4) :: b64char (n0 mod 4 * 16 + n1 / 16) ::
    b64char (n1 mod 16 * 4 + n2 / 64) :: b64char (n2 mod 64) ::
    b64encode rest
  end.

Fixpoint index_of (c : byte) (l : bytes) (i : N) : option N :=
  match l with
  | [] => None
  | x :: r => if Byte.eqb c x then Some i else index_of c r (N.succ i)
  end.

Definition b64val (c : byte) : option N := index_of c alphabet 0.

(** Modelled from the spec: the receiving end of the chunk path, which
    decodes what was encoded, is not among the scripts.  Groups of four
    characters give three bytes; padding may only close the input. *)
Fixpoint b64decode (s : bytes) : option bytes :=
  match s with
  | [] => Some []
  | c0 :: c1 :: c2 :: c3 :: rest =>
    match b64val c0, b64val c1 with
    | Some v0, Some v1 =>
      let y0 := byte_of (v0 * 4 + v1 / 16) in
      if Byte.eqb c2 PAD then
        match rest with
        | [] => if Byte.eqb c3 PAD then Some [y0] else None
        | _ :: _ => None
        end
      else
        match b64val c2 with
        | Some v2 =>
          let y1 := byte_of (v1 mod 16 * 16 + v2 / 4) in
          if Byte.eqb c3 PAD then
            match rest with
            | [] => Some [y0; y1]
            | _ :: _ => None
            end
          else
            match b64val c3 with
            | Some v3 =>
              let y2 := byte_of (v2 mod 4 * 64 + v3) in
              match b64decode rest with
              | Some tl => Some (y0 :: y1 :: y2 :: tl)
              | None => None
              end
            | None => None
            end
        | None => None
        end
    | _, _ => None
    end
  | _ => None
  end.

(** Slice the payload at the chunk size, encode every slice. *)
Definition send_chunks (chunk : nat) (payload : bytes) : list bytes :=
  map b64encode (slice_payload chunk payload).

(** test_hardware.py, lines 66-70, encodes first and cuts the encoded text:
    the pieces of [chunk] characters of [b64encode payload]. *)
Definition send_encoded (chunk : nat) (payload : bytes) : list bytes :=
  slice_payload chunk (b64encode payload).

(** Modelled from the spec: "decoding and concatenating the chunks". *)
Fixpoint receive_chunks (chunks : list bytes) : option bytes :=
  match chunks with
  | [] => Some []
  | c :: rest =>
    match b64decode c, receive_chunks rest with
    | Some d, Some tl => Some (d ++ tl)
    | _, _ => None
    end
  end.

(** ** Framing and classification of an execution response *)

Definition DELIMITER : byte := x04.

(** The bytes before the first delimiter, and those after it. *)
Fixpoint split_delimiter (bs : bytes) : option (bytes * bytes) :=
  match bs with
  | [] => None
  | c :: r =>
    if Byte.eqb c DELIMITER then Some ([], r)
    else
      match split_delimiter r with
      | Some (h, t) => Some (c :: h, t)
      | None => None
      end
  end.

Inductive framing : Type :=
  | NoDelimiter
  | OneDelimiter (out : bytes) (partial : bytes)
  | Framed (out err rest : bytes).

(** Modelled from the spec: the ExecutionEngine is not among the scripts.
    "stdout bytes, a first 0x04 delimiter, stderr/traceback bytes, a second
    0x04 delimiter, and a terminal prompt byte"; the engine counts the two
    delimiters. *)
Definition frame (response : bytes) : framing :=
  match split_delimiter response with
  | None => NoDelimiter
  | Some (out, r) =>
    match split_delimiter r with
    | None => OneDelimiter out r
    | Some (err, rest) => Framed out err rest
    end
  end.

Inductive ErrorKind : Type :=
  | SyntaxError | RuntimeError | MemoryError | FileSystemError
  | ImportError | TimeoutError | InterruptedError | UnknownError.

Record ClassifiedError : Type := {
  kind : ErrorKind;
  message : text;
  diagnostics : list (string * string);
  remediation : string;
  recoverable : bool
}.

Record ExecutionResult : Type := {
  stdout : bytes;
  stderr : bytes;
  elapsed : N;
  classified_error : option ClassifiedError
}.

Inductive execute_outcome : Type :=
  | Executed (r : ExecutionResult)
  | ExecutionPartialOutputError (partial : bytes)
  | ExecutionTimedOut (partial : bytes).

(** Drop a leading [p] from [s] when it is there. *)
Definition strip_prefix (p s : bytes) : bytes :=
  if starts_with (codes p) (codes s) then skipn (List.length p) s else s.

Section ExecutionEngine.

(** The ErrorClassifier, a pure function of the error-channel text. *)
Variable ErrorClassifier : text -> option ClassifiedError.

(** Modelled from the spec: "stderr bytes are forwarded to ErrorClassifier
    only when non-empty; an empty stderr slice yields no classified
    error". *)
Definition classify_error_channel (err : bytes) : option ClassifiedError :=
  match err with
  | [] => None
  | _ :: _ => ErrorClassifier (decode err)
  end.

(** Modelled from the spec: what the engine makes of the bytes it has
    when the read ends; the echo of the code and the [OK] marker are
    optional. *)
Definition execute_outcome_of (code : bytes) (took : N) (response : bytes)
    : execute_outcome :=
  match frame response with
  | Framed out err _ =>
      Executed {| stdout := strip_prefix (b "OK") (strip_prefix code out);
                  stderr := err;
                  elapsed := took;
                  classified_error := classify_error_channel err |}
  | OneDelimiter _ _ => ExecutionPartialOutputError response
  | NoDelimiter => ExecutionTimedOut response
  end.

End ExecutionEngine.

(** An execution response with the given stdout and stderr. *)
Definition framed (out err rest : bytes) : bytes :=
  out ++ DELIMITER :: err ++ DELIMITER :: rest.

(** ** Deadline classes *)

(** test_error_detection.py, lines 73-78: the operation classes and the
    number of seconds each description names. *)
Inductive operation : Type := prompt | execution | file_transfer | soft_reboot.

Definition floor_ms (op : operation) : N :=
  match op with
  | prompt => 2000
  | execution => 10000
  | file_transfer => 30000
  | soft_reboot => 15000
  end.

(** The deadline a read of [read_with_timeout] runs with: the caller's
    [timeout_ms] (line 13, [timeout_seconds = timeout_ms / 1000.0]). *)
Definition deadline (w : world) (timeout_ms : N) : N := clock w + timeout_ms.

(** ** Auxiliary notions and the inputs of the examples *)

(** Text made of ASCII code points. *)
Definition ascii_text (p : text) : Prop := Forall (fun c => c < 128) p.

(** A byte outside ASCII. *)
Definition high (c : byte) : Prop := 128 <= Byte.to_N c.

Ltac ascii_literal :=
  unfold ascii_text; repeat constructor.

(** Linear arithmetic over [N] with division and remainder by constants. *)
Ltac n_arith := zify; Z.to_euclidean_division_equations; lia.

(** The values of the base64 digits. *)
Definition sextets : list N := map N.of_nat (seq 0 64).

(** The interactive prompt is still in the buffer and the banner has only
    begun to arrive. *)
Definition early_banner : bytes := b ">>> raw REPL; CT".

(** The banner of the raw REPL. *)
Definition banner : bytes :=
  b "raw REPL; CTRL-B to exit" ++ [x0d; x0a] ++ b ">".

(** The response to ["1+2"] of a target that sends no [OK] marker: stdout,
    the two delimiters around an empty stderr, the prompt. *)
Definition response_without_OK : bytes := framed (b "2") [] (b ">").

(** A read that brings data does so after at least a millisecond; the
    other reads are followed by the sleep. *)
Definition advances (e : event) : Prop :=
  match outcome e with
  | Returned (_ :: _) => 1 <= latency e
  | _ => True
  end.

(** A reply to ["1+2"] cut after the first delimiter. *)
Definition one_delimiter_reply : bytes := b "OK3" ++ [DELIMITER].

(** A device on a blocking pipe that stays quiet for five seconds: the
    first [read] returns only then. *)
Definition slow_device : channel := script [after 5000 (b "x")] nothing.

(** The first read fails, the second brings the banner. *)
Definition failure_then_banner : channel :=
  script [failing OSError; now banner] nothing.

(** The reply arrives in one read, then nothing. *)
Definition one_read (reply : bytes) : channel := script [now reply] nothing.

(** A reply with one delimiter and no [OK]. *)
Definition unmarked_partial_reply : bytes := b "3" ++ [DELIMITER].

(** The reply to ["1+2"] arrives a millisecond after the request. *)
Definition prompt_device : channel :=
  script [after 1 (b "OK3" ++ [DELIMITER; DELIMITER] ++ b ">")] nothing.

(** A pipe with one byte waiting whose next read fails. *)
Definition broken_pipe : pipe := {| pending := b "x"; idle := Fails |}.

(** Output of a program that succeeded (test_error_classification_fix.py,
    line 14). *)
Definition legitimate_output : bytes :=
  b "The test failed successfully - this is expected behavior".

(** A classifier that knows no pattern: whatever reaches it is an unknown,
    unrecoverable error. *)
Definition unknown_error (t : text) : option ClassifiedError :=
  Some {| kind := UnknownError; message := t; diagnostics := [];
          remediation := ""; recoverable := false |}.

(** The size stays between the two bounds. *)
Definition within_bounds (size : N) : Prop :=
  MIN_CHUNK <= size /\ size <= MAX_CHUNK.

(** Double on success, halve on failure. *)
Definition double (size : N) : N := 2 * size.
Definition halve (size : N) : N := size / 2.

(** ** More of the scripts *)

(** test_raw_repl_flow.py, lines 37-52: the banner is read one byte at a
    time, with a sleep after every round that does not break.
<<
    while time.time() - start_time < 2:
        try:
            proc.stdout.flush()
            byte = proc.stdout.read(1)
            if byte:
                output += byte
                if b">" in output and b"raw REPL" in output:
                    break
        except:
            pass
        time.sleep(0.01)
>> *)
Fixpoint raw_repl_flow_loop (fuel : nat) (ch : channel) (start_time : N)
    (output : bytes) (w : world) : option (bytes * world) :=
  match fuel with
  | O => None
  | S fuel' =>
    if clock w - start_time <? 2000 then
      match poll ch w with
      | (Returned [], w1) =>
          raw_repl_flow_loop fuel' ch start_time output (sleep w1)
      | (Returned byte, w1) =>
          let output' := output ++ byte in
          if raw_repl_flow_complete output' then Some (output', w1)
          else raw_repl_flow_loop fuel' ch start_time output' (sleep w1)
      | (Raised _, w1) =>
          raw_repl_flow_loop fuel' ch start_time output (sleep w1)
      end
    else Some (output, w)
  end.

Definition test_raw_repl_read (fuel : nat) (ch : channel) (w : world)
    : option (bytes * world) :=
  raw_repl_flow_loop fuel ch (clock w) [] w.

(** A channel read with [read(1)]: no read returns more than one byte. *)
Definition byte_reads (ch : channel) : Prop :=
  forall i,
    match outcome (ch i) with
    | Returned data => (List.length data <= 1)%nat
    | Raised _ => True
    end.

(** quick_test.py, lines 44-55: the row of one file size.  The throughput
    is [(size / total_time) * 1000 / 1024], a float that is not computed
    here; what is kept of it is that the division raises
    [ZeroDivisionError] when [total_time] is zero. *)
Definition simulated_row (size : N) : option (N * N) :=
  let (chunks, total_time) := simulated_transfer size in
  if total_time =? 0 then None else Some (chunks, total_time).

(** The banner, one byte per read. *)
Definition bytewise (data : bytes) : channel :=
  script (map (fun c => now [c]) data) nothing.

(** A euro sign and a letter wait in the pipe. *)
Definition euro_pipe : pipe :=
  {| pending := [xe2; x82; xac; x41]; idle := WouldBlock |}.

(** ** The drain on a blocking pipe *)

(** debug_csharp_protocol.py and test_subprocess_fix.py leave the pipe of
    [subprocess.Popen] in blocking mode.  A read on it brings the bytes
    that are there, none at end of file; or it raises; or, while the
    interpreter keeps its stdout open and writes nothing, it does not come
    back. *)
Inductive blocking_read : Type :=
  | Brings (data : bytes)   (* the empty [data] is end of file *)
  | Breaks (e : exn)
  | Blocks.

(** The successive reads of such a pipe. *)
Definition blocking_pipe : Type := nat -> blocking_read.

(** How a drain goes, with the number of the reads that came back: the
    loop is left, or the drain hangs in a read. *)
Inductive drained : Type :=
  | DrainEnds (reads : nat)
  | DrainBlocks (reads : nat).

(** debug_csharp_protocol.py, lines 54-62 and 72-80, and
    test_subprocess_fix.py, lines 25-34 and 43-51: the drain that prints
    what it reads and stops on an empty read or on any error.
<<
    while True:
        try:
            data = proc.stdout.read(1024)
            if data: print(...)
            else: break
        except:
            break
>> *)
Fixpoint drain_quietly (fuel : nat) (p : blocking_pipe) (from : nat)
    : option drained :=
  match fuel with
  | O => None
  | S fuel' =>
    match p from with
    | Brings [] => Some (DrainEnds (S from))
    | Brings (_ :: _) => drain_quietly fuel' p (S from)
    | Breaks _ => Some (DrainEnds (S from))
    | Blocks => Some (DrainBlocks from)
    end
  end.

(** The read brings at least a byte. *)
Definition brings_data (r : blocking_read) : Prop :=
  exists d data, r = Brings (d :: data).

(** The read comes back without data: end of file, or an error. *)
Definition brings_none (r : blocking_read) : Prop :=
  r = Brings [] \/ exists e, r = Breaks e.

(** An interpreter that printed its prompt and waits for input. *)
Definition waiting_interpreter : blocking_pipe :=
  fun i => match i with O => Brings (b ">>> ") | _ => Blocks end.

(** ** Labels and devices *)

Definition COLON : N := 0x3A.

(** [s.split(':')[0]]: the text before the first colon, all of [s] if it
    has none. *)
Fixpoint before_colon (s : text) : text :=
  match s with
  | [] => []
  | c :: r => if c =? COLON then [] else c :: before_colon r
  end.

(** [c.isspace()] for a single character: the whitespace [str.split()]
    splits at. *)
Definition isspace (c : N) : bool :=
  ((0x09 <=? c) && (c <=? 0x0D)) || ((0x1C <=? c) && (c <=? 0x20)) ||
  (c =? 0x85) || (c =? 0xA0) || (c =? 0x1680) ||
  ((0x2000 <=? c) && (c <=? 0x200A)) ||
  (c =? 0x2028) || (c =? 0x2029) || (c =? 0x202F) || (c =? 0x205F) ||
  (c =? 0x3000).

(** The characters up to the next whitespace. *)
Fixpoint take_word (s : text) : text :=
  match s with
  | [] => []
  | c :: r => if isspace c then [] else c :: take_word r
  end.

(** [s.split()[0]]; [None] stands for the [IndexError] raised when [s]
    has no word. *)
Fixpoint first_word (s : text) : option text :=
  match s with
  | [] => None
  | c :: r => if isspace c then first_word r else Some (c :: take_word r)
  end.

(** test_error_classification_fix.py, line 51:
    [error.split(':')[0] if ':' in error else error.split()[0]]. *)
Definition error_pattern (error : text) : option text :=
  if str_in [COLON] error then Some (before_colon error)
  else first_word error.

(** The errors the script lists (lines 38-44). *)
Definition actual_errors : list text :=
  [lit "Traceback (most recent call last):" ++ [10] ++
   lit "  File " ++ [0x22] ++ lit "<stdin>" ++ [0x22] ++ lit ", line 1" ++ [10] ++
   lit "NameError: name 'x' is not defined";
   lit "SyntaxError: invalid syntax";
   lit "MemoryError: memory allocation failed";
   lit "OSError: [Errno 2] ENOENT";
   lit "ImportError: No module named 'requests'";
   lit "KeyboardInterrupt";
   lit "RuntimeError: maximum recursion depth exceeded"].

(** test_hardware.py, lines 110-117. *)
Definition test_devices : list string :=
  ["/dev/ttyACM0"; "/dev/ttyACM1"; "/dev/ttyACM3";
   "/dev/ttyACM4"; "/dev/ttyACM5"; "/dev/ttyACM6"]%string.

Section Devices.

(** [os.path.exists] and the verdict of [test_device_communication], which
    catches its own errors and answers [True] or [False]. *)
Variable path_exists : string -> bool.
Variable test_device_communication : string -> bool.

(** test_hardware.py, lines 119-135: the devices are tried in order and
    the loop breaks at the first one that passes.  The result is [success]
    with the devices that were opened. *)
Fixpoint try_devices (devices : list string) : bool * list string :=
  match devices with
  | [] => (false, [])
  | device :: rest =>
    if path_exists device then
      if test_device_communication device then (true, [device])
      else let (success, opened) := try_devices rest in
           (success, device :: opened)
    else try_devices rest
  end.

Definition main : bool := fst (try_devices test_devices).

End Devices.

(** ** The device test of test_hardware.py *)

(** [bytes.decode('utf-8', errors='ignore')]: the decoder of [decode], with
    every ill-formed sequence dropped instead of replaced. *)
Fixpoint decode_ignore (bs : bytes) : text :=
  match bs with
  | [] => []
  | b0 :: r0 =>
    let c0 := Byte.to_N b0 in
    if c0 <? 0x80 then c0 :: decode_ignore r0
    else if c0 <? 0xC2 then decode_ignore r0
    else if c0 <? 0xE0 then
      match r0 with
      | [] => []
      | b1 :: r1 =>
        let c1 := Byte.to_N b1 in
        if is_continuation c1 then cp2 c0 c1 :: decode_ignore r1
        else decode_ignore r0
      end
    else if c0 <? 0xF0 then
      match r0 with
      | [] => []
      | b1 :: r1 =>
        let c1 := Byte.to_N b1 in
        if second_of_3 c0 c1 then
          match r1 with
          | [] => []
          | b2 :: r2 =>
            let c2 := Byte.to_N b2 in
            if is_continuation c2 then cp3 c0 c1 c2 :: decode_ignore r2
            else decode_ignore r1
          end
        else decode_ignore r0
      end
    else if c0 <? 0xF5 then
      match r0 with
      | [] => []
      | b1 :: r1 =>
        let c1 := Byte.to_N b1 in
        if second_of_4 c0 c1 then
          match r1 with
          | [] => []
          | b2 :: r2 =>
            let c2 := Byte.to_N b2 in
            if is_continuation c2 then
              match r2 with
              | [] => []
              | b3 :: r3 =>
                let c3 := Byte.to_N b3 in
                if is_continuation c3 then cp4 c0 c1 c2 c3 :: decode_ignore r3
                else decode_ignore r2
              end
            else decode_ignore r1
          end
        else decode_ignore r0
      end
    else decode_ignore r0
  end.

(** test_hardware.py, line 35: ['>' in response or 'raw REPL' in response]. *)
Definition entered_raw_repl (response : text) : bool :=
  str_in (lit ">") response || str_in (lit "raw REPL") response.

(** test_hardware.py, lines 58-81: the transfer simulation sleeps one
    millisecond per chunk of the encoded text, for the sizes 64, 256 and
    1024; the random payload has no part in it but its size. *)
Definition simulation_sleeps : N :=
  fold_left N.add
    (map (fun size => chunk_count (4 * ((size + 2) / 3))
                        (simplified_chunk_size size))
         [64; 256; 1024]) 0.

(** [sleep(ms / 1000)] *)
Definition pause (ms : N) (w : world) : world :=
  {| clock := clock w + ms; polls := polls w |}.

(** The serial port as the test meets it: whether [serial.Serial] opens
    it, which of the [ser.write] calls succeed, numbered in the order of the
    source, and whether the port closes when the [with] block is left.  The
    reads are those of the channel. *)
Record port : Type := {
  opens : bool;
  accepts : nat -> bool;
  closes : bool
}.

(** test_hardware.py, lines 12-100.  [ser.read] waits for the serial
    timeout at most and then returns what it has.  Every call on the port is
    inside the [try] whose [except Exception] answers [False]: the test
    fails when the port does not open, when a write or a read raises, and
    when closing the port raises.  The simulated transfers in between
    divide by the time they took, which is positive: each sleeps a
    millisecond per chunk, and has a chunk at least.  Printing is taken to
    succeed.  The result is the verdict with the clock and the bytes the
    port took. *)
Definition test_device_communication (p : port) (ch : channel) (w0 : world)
    : bool * (world * bytes) :=
  if negb (opens p) then (false, (w0, [])) else
  if negb (accepts p 0) then (false, (w0, [])) else
  let sent1 := [x0d; x0a] in
  let w1 := pause 100 w0 in
  if negb (accepts p 1) then (false, (w1, sent1)) else
  let sent2 := sent1 ++ [x0d; x03] in
  let w2 := pause 100 w1 in
  if negb (accepts p 2) then (false, (w2, sent2)) else
  let sent3 := sent2 ++ [x0d; x01] in
  match poll ch (pause 200 w2) with
  | (Raised _, w3) => (false, (w3, sent3))
  | (Returned data, w3) =>
    if entered_raw_repl (decode_ignore data) then
      if negb (accepts p 3) then (false, (w3, sent3)) else
      let sent4 := sent3 ++ b "2 + 3" ++ [x0d; x0a] in
      if negb (accepts p 4) then (false, (w3, sent4)) else
      let sent5 := sent4 ++ [x04] in
      match poll ch (pause 100 w3) with
      | (Raised _, w4) => (false, (w4, sent5))
      | (Returned answer, w4) =>
        let w5 :=
          if str_in (lit "5") (decode_ignore answer)
          then pause simulation_sleeps w4 else w4 in
        if negb (accepts p 5) then (false, (w5, sent5)) else
        (closes p, (pause 100 w5, sent5 ++ [x02]))
      end
    else (false, (w3, sent3))
  end.

(** A port on which everything goes well. *)
Definition sound_port : port :=
  {| opens := true; accepts := fun _ => true; closes := true |}.

(** The device answers the banner, then the sum. *)
Definition answering_device : channel :=
  script [after 1 banner; after 1 (b "OK5" ++ [x04; x04] ++ b ">")] nothing.

(** ** The rounds of [read_with_timeout] *)

(** What a round of the loop costs: the read, and the sleep when the read
    brought nothing or raised. *)
Definition round_time (e : event) : N :=
  latency e +
  match outcome e with
  | Returned (_ :: _) => 0
  | _ => POLL_INTERVAL
  end.

(** The time the rounds numbered [from], ..., [from + n - 1] take when none
    of them ends the loop. *)
Fixpoint rounds_time (ch : channel) (from n : nat) : N :=
  match n with
  | O => 0
  | S n' => round_time (ch from) + rounds_time ch (S from) n'
  end.

(** The read that began with the read numbered [from] goes through [n]
    rounds at least: each of them begins before the deadline, and none
    leaves a buffer that meets the completion test. *)
Definition still_reading (ch : channel) (from : nat) (t : N) (n : nat) : Prop :=
  forall i, (i < n)%nat ->
    rounds_time ch from i < t /\
    check_completion (decode (received ch from (S i))) = Incomplete.

(** The two branches of the completion test (lines 24 and 27), on the
    bytes of the buffer. *)
Definition completes (buffer : bytes) : Prop :=
  contains (b "raw REPL") buffer /\
  (contains (b "CTRL-B") buffer \/ contains (b ">") buffer)
  \/
  contains (b "OK") buffer /\
  (contains [DELIMITER] buffer \/ contains (b ">") buffer).

(** The first read fails, the second brings the banner a millisecond
    after it was asked for. *)
Definition failure_then_late_banner : channel :=
  script [failing OSError; after 1 banner] nothing.

(** Nothing at the first read; at the second, a reply cut after its first
    delimiter. *)
Definition late_one_delimiter : channel :=
  script [nothing; now one_delimiter_reply] nothing.

(** The device test gets as far as its last write: the port opens, the six
    writes succeed, the first read returns bytes in which the test sees the
    raw REPL, and the second read returns. *)
Definition reaches_exit (p : port) (ch : channel) (w0 : world) : Prop :=
  opens p = true /\
  (forall i, (i < 6)%nat -> accepts p i = true) /\
  exists data answer,
    outcome (ch (polls w0)) = Returned data /\
    (In x3e data \/ str_in (lit "raw REPL") (decode_ignore data) = true) /\
    outcome (ch (S (polls w0))) = Returned answer.

(** * Properties *)

(** ** Substring tests *)

Lemma starts_with_spec (p s : text) :
  starts_with p s = true <-> exists suf, s = p ++ suf.
Proof.
  revert s; induction p as [|a p IH]; intros s; simpl.
  - split; [intros _; now exists s | reflexivity].
  - destruct s as [|c s].
    + split; [discriminate | intros [suf H]; discriminate].
    + rewrite andb_true_iff, N.eqb_eq, IH. split.
      * intros [-> [suf ->]]. now exists suf.
      * intros [suf H]. injection H as -> ->. split; [reflexivity | now exists suf].
Qed.

Lemma str_in_spec (p s : text) : str_in p s = true <-> contains p s.
Proof.
  induction s as [|a s IH]; simpl.
  - rewrite orb_false_r, starts_with_spec. split.
    + intros [suf H]. exists [], suf. exact H.
    + intros [pre [suf H]]. destruct pre; [|discriminate]. now exists suf.
  - rewrite orb_true_iff, starts_with_spec, IH. split.
    + intros [[suf H] | [pre [suf H]]].
      * exists [], suf. exact H.
      * exists (a :: pre), suf. simpl. now rewrite H.
    + intros [pre [suf H]]. destruct pre as [|x pre]; simpl in H.
      * left. now exists suf.
      * right. injection H as _ H. now exists pre, suf.
Qed.

Lemma to_N_inj (x y : byte) : Byte.to_N x = Byte.to_N y -> x = y.
Proof.
  intros H. apply (f_equal Byte.of_N) in H.
  rewrite !Byte.of_to_N in H. now injection H.
Qed.

Lemma codes_inj (x y : bytes) : codes x = codes y -> x = y.
Proof.
  revert y; induction x as [|a x IH]; intros [|c y] H; try discriminate.
  - reflexivity.
  - simpl in H. injection H as H1 H2. f_equal; [now apply to_N_inj | now apply IH].
Qed.

Lemma codes_app (x y : bytes) : codes (x ++ y) = codes x ++ codes y.
Proof. apply map_app. Qed.

(** Containment among bytes is containment among their code points. *)
Lemma contains_codes (p s : bytes) :
  contains (codes p) (codes s) <-> contains p s.
Proof.
  split.
  - intros [pre [suf H]]. unfold codes in H.
    apply map_eq_app in H. destruct H as [s1 [s2 [-> [_ H]]]].
    apply map_eq_app in H. destruct H as [s3 [s4 [-> [H _]]]].
    apply codes_inj in H. subst s3. now exists s1, s4.
  - intros [pre [suf ->]]. exists (codes pre), (codes suf).
    now rewrite !codes_app.
Qed.

Lemma str_in_bytes (p s : bytes) :
  str_in (codes p) (codes s) = true <-> contains p s.
Proof. now rewrite str_in_spec, contains_codes. Qed.

(** ** The lossy decoder keeps ASCII text in place *)

Lemma decode_low (b0 : byte) (r : bytes) :
  Byte.to_N b0 < 128 -> decode (b0 :: r) = Byte.to_N b0 :: decode r.
Proof.
  intros H. simpl. apply N.ltb_lt in H. now rewrite H.
Qed.

Lemma is_continuation_high (c : byte) :
  is_continuation (Byte.to_N c) = true -> high c.
Proof.
  unfold is_continuation, high. rewrite andb_true_iff, !N.leb_le. lia.
Qed.

Lemma second_of_3_high (c0 : N) (c : byte) :
  second_of_3 c0 (Byte.to_N c) = true -> high c.
Proof.
  unfold second_of_3. rewrite andb_true_iff. intros [H _].
  now apply is_continuation_high.
Qed.

Lemma second_of_4_high (c0 : N) (c : byte) :
  second_of_4 c0 (Byte.to_N c) = true -> high c.
Proof.
  unfold second_of_4. rewrite andb_true_iff. intros [H _].
  now apply is_continuation_high.
Qed.

(** A byte outside ASCII starts a code point outside ASCII, and the bytes
    the decoder consumes with it are outside ASCII too. *)
Lemma decode_high (b0 : byte) (r : bytes) :
  high b0 ->
  exists x k,
    128 <= x /\
    decode (b0 :: r) = x :: decode (skipn k r) /\
    Forall high (firstn k r).
Proof.
  unfold high. intros H.
  assert (E0 : (Byte.to_N b0 <? 128) = false) by (apply N.ltb_ge; lia).
  assert (R : 128 <= REPLACEMENT) by (unfold REPLACEMENT; lia).
  assert (STAY : forall t, exists x k,
            128 <= x /\ REPLACEMENT :: decode t = x :: decode (skipn k t) /\
            Forall high (firstn k t)).
  { intros t. exists REPLACEMENT, 0%nat. simpl. auto. }
  assert (LAST : exists x k,
            128 <= x /\ [REPLACEMENT] = x :: decode (skipn k (@nil byte)) /\
            Forall high (firstn k (@nil byte))).
  { exists REPLACEMENT, 0%nat. simpl. auto. }
  simpl decode. rewrite E0.
  destruct (Byte.to_N b0 <? 194) eqn:E1; [apply STAY|].
  apply N.ltb_ge in E1.
  destruct (Byte.to_N b0 <? 224) eqn:E2.
  { destruct r as [|b1 r1]; [apply LAST|].
    destruct (is_continuation (Byte.to_N b1)) eqn:C1; [|apply STAY].
    exists (cp2 (Byte.to_N b0) (Byte.to_N b1)), 1%nat. simpl.
    apply is_continuation_high in C1. unfold high in C1.
    repeat split; [unfold cp2; lia | auto]. }
  apply N.ltb_ge in E2.
  destruct (Byte.to_N b0 <? 240) eqn:E3.
  { destruct r as [|b1 r1]; [apply LAST|].
    destruct (second_of_3 (Byte.to_N b0) (Byte.to_N b1)) eqn:C1; [|apply STAY].
    pose proof (second_of_3_high _ _ C1) as H1.
    destruct r1 as [|b2 r2].
    { exists REPLACEMENT, 1%nat. simpl. auto. }
    destruct (is_continuation (Byte.to_N b2)) eqn:C2.
    - exists (cp3 (Byte.to_N b0) (Byte.to_N b1) (Byte.to_N b2)), 2%nat. simpl.
      apply is_continuation_high in C2.
      repeat split; [|auto].
      unfold second_of_3, is_continuation in C1.
      rewrite !andb_true_iff, negb_true_iff, !N.leb_le in C1.
      destruct C1 as [_ C1]. unfold cp3, high in *.
      destruct (Byte.to_N b1 <? 160) eqn:L.
      + apply N.eqb_neq in C1. lia.
      + apply N.ltb_ge in L. lia.
    - exists REPLACEMENT, 1%nat. simpl. auto. }
  apply N.ltb_ge in E3.
  destruct (Byte.to_N b0 <? 245) eqn:E4; [|apply STAY].
  destruct r as [|b1 r1]; [apply LAST|].
  destruct (second_of_4 (Byte.to_N b0) (Byte.to_N b1)) eqn:C1; [|apply STAY].
  pose proof (second_of_4_high _ _ C1) as H1.
  destruct r1 as [|b2 r2].
  { exists REPLACEMENT, 1%nat. simpl. auto. }
  destruct (is_continuation (Byte.to_N b2)) eqn:C2.
  2:{ exists REPLACEMENT, 1%nat. simpl. auto. }
  pose proof (is_continuation_high _ C2) as H2.
  destruct r2 as [|b3 r3].
  { exists REPLACEMENT, 2%nat. simpl. auto. }
  destruct (is_continuation (Byte.to_N b3)) eqn:C3.
  2:{ exists REPLACEMENT, 2%nat. simpl. auto. }
  pose proof (is_continuation_high _ C3) as H3.
  exists (cp4 (Byte.to_N b0) (Byte.to_N b1) (Byte.to_N b2) (Byte.to_N b3)), 3%nat.
  simpl. repeat split; [|auto].
  unfold second_of_4, is_continuation in C1.
  rewrite !andb_true_iff, negb_true_iff, !N.leb_le in C1.
  destruct C1 as [_ C1]. unfold cp4, high in *.
  destruct (Byte.to_N b1 <? 144) eqn:L.
  - apply N.eqb_neq in C1. lia.
  - apply N.ltb_ge in L. lia.
Qed.

Lemma byte_low_or_high (c : byte) : Byte.to_N c < 128 \/ high c.
Proof. unfold high. lia. Qed.

Lemma starts_with_decode (p : text) (bs : bytes) :
  ascii_text p -> starts_with p (decode bs) = starts_with p (codes bs).
Proof.
  intros A. revert bs. induction A as [|c p Hc A IH]; intros bs.
  - reflexivity.
  - destruct bs as [|b0 r]; [reflexivity|].
    destruct (byte_low_or_high b0) as [L | Hh].
    + rewrite decode_low by exact L. simpl. now rewrite IH.
    + destruct (decode_high b0 r Hh) as [x [k [Hx [E _]]]].
      rewrite E. simpl. unfold high in Hh.
      replace (c =? x) with false by (symmetry; apply N.eqb_neq; lia).
      replace (c =? Byte.to_N b0) with false
        by (symmetry; apply N.eqb_neq; lia).
      reflexivity.
Qed.

Lemma starts_with_high (c : N) (p s : text) (x : N) :
  c < 128 -> 128 <= x -> starts_with (c :: p) (x :: s) = false.
Proof.
  intros Hc Hx. simpl.
  replace (c =? x) with false by (symmetry; apply N.eqb_neq; lia).
  reflexivity.
Qed.

Lemma str_in_skip_high (c : N) (p : text) (l1 l2 : bytes) :
  c < 128 -> Forall high l1 ->
  str_in (c :: p) (codes (l1 ++ l2)) = str_in (c :: p) (codes l2).
Proof.
  intros Hc F. induction F as [|h l1 Hh F IH]; [reflexivity|].
  change (codes ((h :: l1) ++ l2)) with (Byte.to_N h :: codes (l1 ++ l2)).
  cbn [str_in]. rewrite starts_with_high by assumption. exact IH.
Qed.

(** An ASCII needle is in the decoded text exactly when its bytes are in
    the buffer. *)
Lemma str_in_decode (c : N) (p : text) (bs : bytes) :
  ascii_text (c :: p) ->
  str_in (c :: p) (decode bs) = str_in (c :: p) (codes bs).
Proof.
  intros A. pose proof (Forall_inv A) as Hc. simpl in Hc.
  remember (List.length bs) as n eqn:Hn.
  revert bs Hn. induction n as [n IH] using lt_wf_ind. intros bs Hn.
  destruct bs as [|b0 r]; [reflexivity|].
  destruct (byte_low_or_high b0) as [L | Hh].
  - change (codes (b0 :: r)) with (Byte.to_N b0 :: codes r).
    cbn [str_in].
    change (Byte.to_N b0 :: codes r) with (codes (b0 :: r)).
    rewrite <- starts_with_decode by exact A.
    rewrite decode_low by exact L. cbn [str_in].
    rewrite (IH (List.length r)); [reflexivity | simpl in Hn; lia | reflexivity].
  - destruct (decode_high b0 r Hh) as [x [k [Hx [E F]]]].
    rewrite E. cbn [str_in]. rewrite starts_with_high by assumption.
    change (b0 :: r) with ([b0] ++ r).
    rewrite str_in_skip_high by (auto using Forall_cons).
    rewrite <- (firstn_skipn k r) at 2.
    rewrite str_in_skip_high by assumption.
    simpl. apply (IH (List.length (skipn k r))); [|reflexivity].
    rewrite length_skipn. simpl in Hn. lia.
Qed.

Lemma in_decode_bytes (s : string) (bs : bytes) :
  ascii_text (lit s) -> lit s <> [] ->
  (str_in (lit s) (decode bs) = true <-> contains (b s) bs).
Proof.
  intros A NE. unfold lit in *.
  destruct (codes (b s)) as [|c p] eqn:E; [congruence|].
  rewrite str_in_decode by exact A. rewrite <- E. apply str_in_bytes.
Qed.

Lemma raw_REPL_in (bs : bytes) :
  str_in (lit "raw REPL") (decode bs) = true <-> contains (b "raw REPL") bs.
Proof. apply in_decode_bytes; [ascii_literal | discriminate]. Qed.

Lemma CTRL_B_in (bs : bytes) :
  str_in (lit "CTRL-B") (decode bs) = true <-> contains (b "CTRL-B") bs.
Proof. apply in_decode_bytes; [ascii_literal | discriminate]. Qed.

Lemma prompt_in (bs : bytes) :
  str_in (lit ">") (decode bs) = true <-> contains (b ">") bs.
Proof. apply in_decode_bytes; [ascii_literal | discriminate]. Qed.

Lemma OK_in (bs : bytes) :
  str_in (lit "OK") (decode bs) = true <-> contains (b "OK") bs.
Proof. apply in_decode_bytes; [ascii_literal | discriminate]. Qed.

Lemma delimiter_in (bs : bytes) :
  str_in [0x04] (decode bs) = true <-> contains [DELIMITER] bs.
Proof.
  rewrite (str_in_decode 4 [] bs) by ascii_literal.
  apply (str_in_bytes [DELIMITER] bs).
Qed.

Lemma not_contains (p s : bytes) :
  str_in (codes p) (codes s) = false -> ~ contains p s.
Proof.
  intros H C. apply str_in_bytes in C. congruence.
Qed.

Lemma not_has_tail (c : byte) (s : bytes) :
  hd_error (rev s) <> Some c -> ~ has_tail [c] s.
Proof.
  intros H [pre E]. apply H. rewrite E, rev_app_distr. reflexivity.
Qed.

(** ** Raw-mode entry (C1) *)

(** C1, as stated, fails: on the buffer [>>> raw REPL; CT] the completion
    test of the read loop holds, although the buffer has no [CTRL-B] and does
    not end with the prompt byte; the code asks for [>] anywhere. *)
Lemma enter_raw_tail_counterexample :
  ~ (raw_repl_complete (decode early_banner) = true <->
     contains (b "raw REPL") early_banner /\
     (contains (b "CTRL-B") early_banner \/ has_tail (b ">") early_banner)).
Proof.
  intros [H _]. destruct (H eq_refl) as [_ [C | T]].
  - revert C. apply not_contains. reflexivity.
  - revert T. apply not_has_tail. discriminate.
Qed.

(** C1, amended: for every byte buffer, the raw-mode entry test of
    [read_with_timeout] holds exactly when the buffer contains [raw REPL] and
    contains [CTRL-B] or the byte [>] at any position. *)
Theorem enter_raw_complete_iff (buffer : bytes) :
  raw_repl_complete (decode buffer) = true <->
  contains (b "raw REPL") buffer /\
  (contains (b "CTRL-B") buffer \/ contains (b ">") buffer).
Proof.
  unfold raw_repl_complete.
  now rewrite andb_true_iff, orb_true_iff, raw_REPL_in, CTRL_B_in, prompt_in.
Qed.

(** test_raw_repl_flow.py asks for the prompt byte and has no [CTRL-B]
    alternative: what it accepts, [read_with_timeout] accepts. *)
Lemma raw_repl_flow_accepts (output : bytes) :
  raw_repl_flow_complete output = true ->
  raw_repl_complete (decode output) = true.
Proof.
  unfold raw_repl_flow_complete, raw_repl_complete.
  rewrite !andb_true_iff, orb_true_iff, raw_REPL_in, prompt_in.
  intros [P R]. split; [|right]; now apply str_in_bytes.
Qed.

(** ** The read loop *)

Lemma received_app (ch : channel) (from n m : nat) :
  received ch from (n + m) = received ch from n ++ received ch (from + n) m.
Proof.
  revert from. induction n as [|n IH]; intros from; simpl.
  - now rewrite Nat.add_0_r.
  - rewrite IH, <- plus_n_Sm. simpl.
    destruct (outcome (ch from)); [now rewrite app_assoc | reflexivity].
Qed.

Lemma received_one (ch : channel) (from : nat) :
  received ch from 1 =
  match outcome (ch from) with Returned data => data | Raised _ => [] end.
Proof. simpl. destruct (outcome (ch from)); [apply app_nil_r | reflexivity]. Qed.

(** Whatever ends the loop, it hands back the decoded text of the buffer it
    started with followed by everything its reads returned; reads and clock
    only move forward. *)
Lemma read_loop_received (fuel : nat) (ch : channel) (start_time t : N) :
  forall (buffer : bytes) (w : world) (txt : text) (w' : world),
  read_loop fuel ch start_time t buffer w = Some (txt, w') ->
  exists n,
    polls w' = (polls w + n)%nat /\
    txt = decode (buffer ++ received ch (polls w) n) /\
    clock w <= clock w'.
Proof.
  induction fuel as [|fuel IH]; intros buffer w txt w' H; [discriminate|].
  simpl in H.
  destruct (clock w - start_time <? t).
  2:{ injection H as <- <-. exists 0%nat. simpl.
      rewrite Nat.add_0_r, app_nil_r. repeat split. lia. }
  assert (STEP : forall buffer1 w1,
    polls w1 = S (polls w) ->
    clock w <= clock w1 ->
    buffer1 = buffer ++ received ch (polls w) 1 ->
    read_loop fuel ch start_time t buffer1 w1 = Some (txt, w') ->
    exists n, polls w' = (polls w + n)%nat /\
              txt = decode (buffer ++ received ch (polls w) n) /\
              clock w <= clock w').
  { intros buffer1 w1 P C B R. apply IH in R. destruct R as [n [Pn [T Cn]]].
    exists (1 + n)%nat. rewrite received_app. rewrite P in Pn, T.
    repeat split.
    - rewrite Pn. lia.
    - rewrite T, B, <- app_assoc.
      now replace (polls w + 1)%nat with (S (polls w)) by lia.
    - lia. }
  pose proof (received_one ch (polls w)) as R1.
  destruct (outcome (ch (polls w))) as [data | e] eqn:O.
  - destruct data as [|d data].
    + eapply STEP; [| | |exact H];
        [reflexivity | simpl; lia | now rewrite R1, app_nil_r].
    + destruct (check_completion _) eqn:K.
      3:{ eapply STEP; [| | |exact H];
            [reflexivity | simpl; lia | now rewrite R1]. }
      all: injection H as <- <-; exists 1%nat; rewrite R1; simpl;
        repeat split; lia.
  - eapply STEP; [| | |exact H];
      [reflexivity | simpl; lia | now rewrite R1, app_nil_r].
Qed.

(** When every read that brings data takes its millisecond, the loop ends:
    [N.to_nat t + 1] rounds are enough. *)
Lemma read_loop_terminates (ch : channel) (start_time t : N) :
  (forall i, advances (ch i)) ->
  forall (n : nat) (buffer : bytes) (w : world),
  start_time <= clock w ->
  t <= clock w - start_time + N.of_nat n ->
  exists txt w', read_loop (S n) ch start_time t buffer w = Some (txt, w').
Proof.
  intros A. induction n as [|n IH]; intros buffer w Hs Ht.
  - simpl. replace (clock w - start_time <? t) with false
      by (symmetry; apply N.ltb_ge; lia).
    eauto.
  - change (read_loop (S (S n)) ch start_time t buffer w) with
      (if clock w - start_time <? t then
         match poll ch w with
         | (Returned [], w1) =>
             read_loop (S n) ch start_time t buffer (sleep w1)
         | (Returned data, w1) =>
             let buffer' := buffer ++ data in
             match check_completion (decode buffer') with
             | Incomplete => read_loop (S n) ch start_time t buffer' w1
             | _ => Some (decode buffer', w1)
             end
         | (Raised _, w1) =>
             read_loop (S n) ch start_time t buffer (sleep w1)
         end
       else Some (decode buffer, w)).
    destruct (clock w - start_time <? t); [|eauto].
    unfold poll. specialize (A (polls w)). unfold advances in A.
    destruct (outcome (ch (polls w))) as [[|d data] | e].
    + apply IH; unfold sleep, POLL_INTERVAL; simpl; lia.
    + cbv zeta. destruct (check_completion _); eauto.
      apply IH; simpl; lia.
    + apply IH; unfold sleep, POLL_INTERVAL; simpl; lia.
Qed.

Lemma received_S (ch : channel) (from n : nat) :
  received ch from (S n) = received ch from 1 ++ received ch (S from) n.
Proof.
  change (S n) with (1 + n)%nat. rewrite received_app.
  now replace (from + 1)%nat with (S from) by lia.
Qed.

Lemma rounds_time_S (ch : channel) (from n : nat) :
  rounds_time ch from (S n)
  = rounds_time ch from n + round_time (ch (from + n)%nat).
Proof.
  revert from. induction n as [|n IH]; intros from.
  - cbn [rounds_time]. rewrite Nat.add_0_r. lia.
  - change (rounds_time ch from (S (S n))) with
      (round_time (ch from) + rounds_time ch (S from) (S n)).
    rewrite IH. cbn [rounds_time].
    replace (S from + n)%nat with (from + S n)%nat by lia. lia.
Qed.

(** One round that neither meets the deadline nor completes the buffer. *)
Lemma read_loop_round (fuel : nat) (ch : channel) (start_time t : N)
    (buffer : bytes) (w : world) :
  clock w - start_time < t ->
  check_completion (decode (buffer ++ received ch (polls w) 1)) = Incomplete ->
  read_loop (S fuel) ch start_time t buffer w
  = read_loop fuel ch start_time t (buffer ++ received ch (polls w) 1)
      {| clock := clock w + round_time (ch (polls w)); polls := S (polls w) |}.
Proof.
  intros C K. cbn [read_loop]. apply N.ltb_lt in C. rewrite C.
  rewrite received_one in *. unfold poll, round_time, sleep.
  destruct (outcome (ch (polls w))) as [[|d data] | e]; cbn [clock polls].
  - now rewrite app_nil_r, N.add_assoc.
  - cbv zeta. now rewrite K, N.add_0_r.
  - now rewrite app_nil_r, N.add_assoc.
Qed.

(** [n] such rounds. *)
Lemma read_loop_rounds (ch : channel) (start_time t : N) :
  forall (n fuel : nat) (buffer : bytes) (w : world),
  start_time <= clock w ->
  (forall i, (i < n)%nat ->
     clock w - start_time + rounds_time ch (polls w) i < t /\
     check_completion (decode (buffer ++ received ch (polls w) (S i)))
     = Incomplete) ->
  read_loop (n + fuel) ch start_time t buffer w
  = read_loop fuel ch start_time t (buffer ++ received ch (polls w) n)
      {| clock := clock w + rounds_time ch (polls w) n;
         polls := (polls w + n)%nat |}.
Proof.
  induction n as [|n IH]; intros fuel buffer w Hs H.
  - cbn [rounds_time received Nat.add].
    rewrite app_nil_r, N.add_0_r, Nat.add_0_r. now destruct w.
  - destruct (H 0%nat) as [C0 K0]; [lia|].
    cbn [rounds_time] in C0. rewrite N.add_0_r in C0.
    change (S n + fuel)%nat with (S (n + fuel)).
    rewrite read_loop_round by assumption.
    rewrite IH; cbn [clock polls].
    + rewrite (received_S ch (polls w) n), app_assoc. cbn [rounds_time].
      rewrite N.add_assoc.
      replace (S (polls w) + n)%nat with (polls w + S n)%nat by lia.
      reflexivity.
    + lia.
    + intros i Hi. destruct (H (S i)) as [C K]; [lia|].
      cbn [rounds_time] in C.
      rewrite (received_S ch (polls w) (S i)), app_assoc in K.
      split; [lia | exact K].
Qed.

(** The loop ends at once when the deadline has passed. *)
Lemma read_loop_deadline (fuel : nat) (ch : channel) (start_time t : N)
    (buffer : bytes) (w : world) :
  t <= clock w - start_time ->
  read_loop (S fuel) ch start_time t buffer w = Some (decode buffer, w).
Proof.
  intros C. cbn [read_loop]. apply N.ltb_ge in C. now rewrite C.
Qed.

(** The loop ends in the round whose read completes the buffer. *)
Lemma read_loop_accepts (fuel : nat) (ch : channel) (start_time t : N)
    (buffer : bytes) (w : world) (d : byte) (data : bytes) :
  clock w - start_time < t ->
  outcome (ch (polls w)) = Returned (d :: data) ->
  check_completion (decode (buffer ++ d :: data)) <> Incomplete ->
  read_loop (S fuel) ch start_time t buffer w
  = Some (decode (buffer ++ d :: data),
          {| clock := clock w + latency (ch (polls w)); polls := S (polls w) |}).
Proof.
  intros C O K. cbn [read_loop]. apply N.ltb_lt in C. rewrite C.
  unfold poll. rewrite O. cbv zeta.
  destruct (check_completion (decode (buffer ++ d :: data)));
    [reflexivity | reflexivity | congruence].
Qed.

(** [read_with_timeout] after [n] rounds that did not end it. *)
Lemma read_with_timeout_rounds
    (ch : channel) (t : N) (w : world) (n fuel : nat) :
  still_reading ch (polls w) t n ->
  read_with_timeout (n + fuel) ch t w
  = read_loop fuel ch (clock w) t (received ch (polls w) n)
      {| clock := clock w + rounds_time ch (polls w) n;
         polls := (polls w + n)%nat |}.
Proof.
  intros H. unfold read_with_timeout.
  rewrite read_loop_rounds; [reflexivity | lia |].
  intros i Hi. destruct (H i Hi) as [C K]. cbn [app].
  split; [lia | exact K].
Qed.

(** The buffer is incomplete while the read goes on. *)
Lemma still_reading_incomplete (ch : channel) (from : nat) (t : N) (n : nat) :
  still_reading ch from t n ->
  check_completion (decode (received ch from n)) = Incomplete.
Proof.
  intros H. destruct n as [|n]; [reflexivity|].
  apply (H n). lia.
Qed.

(** A round that begins before the deadline makes a read. *)
Lemma read_loop_polls (fuel : nat) (ch : channel) (start_time t : N)
    (buffer : bytes) (w : world) (txt : text) (w' : world) :
  clock w - start_time < t ->
  read_loop fuel ch start_time t buffer w = Some (txt, w') ->
  (polls w < polls w')%nat.
Proof.
  intros C H. destruct fuel as [|fuel]; [discriminate|].
  cbn [read_loop] in H. apply N.ltb_lt in C. rewrite C in H.
  unfold poll in H.
  destruct (outcome (ch (polls w))) as [[|d data] | e]; cbv zeta in H.
  - apply read_loop_received in H. destruct H as [n [P _]].
    cbn [polls sleep] in P. lia.
  - destruct (check_completion _).
    3:{ apply read_loop_received in H. destruct H as [n [P _]].
        cbn [polls] in P. lia. }
    all: injection H as <- <-; cbn [polls]; lia.
  - apply read_loop_received in H. destruct H as [n [P _]].
    cbn [polls sleep] in P. lia.
Qed.

(** ** The completion test over bytes *)

Lemma contains_app_r {A : Type} (p s more : list A) :
  contains p s -> contains p (s ++ more).
Proof.
  intros [pre [suf ->]]. exists pre, (suf ++ more).
  now rewrite <- !app_assoc.
Qed.

Lemma raw_repl_complete_contains (buffer : bytes) :
  raw_repl_complete (decode buffer) = true <->
  contains (b "raw REPL") buffer /\
  (contains (b "CTRL-B") buffer \/ contains (b ">") buffer).
Proof.
  unfold raw_repl_complete.
  now rewrite andb_true_iff, orb_true_iff, raw_REPL_in, CTRL_B_in, prompt_in.
Qed.

Lemma execution_complete_contains (buffer : bytes) :
  execution_complete (decode buffer) = true <->
  contains (b "OK") buffer /\
  (contains [DELIMITER] buffer \/ contains (b ">") buffer).
Proof.
  unfold execution_complete.
  now rewrite andb_true_iff, orb_true_iff, OK_in, delimiter_in, prompt_in.
Qed.

Lemma check_completion_complete (t : text) :
  check_completion t <> Incomplete <->
  raw_repl_complete t = true \/ execution_complete t = true.
Proof.
  unfold check_completion.
  destruct (raw_repl_complete t), (execution_complete t); split;
    intros H; auto; try discriminate; try tauto.
  destruct H; discriminate.
Qed.

Lemma check_completion_completes (buffer : bytes) :
  check_completion (decode buffer) <> Incomplete <-> completes buffer.
Proof.
  unfold completes.
  now rewrite check_completion_complete, raw_repl_complete_contains,
    execution_complete_contains.
Qed.

Lemma read_loop_early (fuel : nat) (ch : channel) (start_time t : N) :
  forall (buffer : bytes) (w : world) (txt : text) (w' : world),
  read_loop fuel ch start_time t buffer w = Some (txt, w') ->
  check_completion txt <> Incomplete \/ t <= clock w' - start_time.
Proof.
  induction fuel as [|fuel IH]; intros buffer w txt w' H; [discriminate|].
  cbn [read_loop] in H.
  destruct (clock w - start_time <? t) eqn:C.
  2:{ injection H as <- <-. right. now apply N.ltb_ge. }
  destruct (poll ch w) as [[[|d data] | e] w1]; cbv zeta in H.
  - now apply IH in H.
  - destruct (check_completion (decode (buffer ++ d :: data))) eqn:K.
    3:{ now apply IH in H. }
    all: injection H as <- <-; left; rewrite K; discriminate.
  - now apply IH in H.
Qed.


Lemma prompt_device_advances (i : nat) : advances (prompt_device i).
Proof.
  destruct i as [|[|i]]; unfold advances; simpl; try exact I. lia.
Qed.

(** ** Execution output (C2) *)




(** The response without [OK] in a single read: the read goes through its
    two hundred rounds and hands the response back at the deadline; with
    [raw REPL] in it, the same framing is accepted at the first read. *)
Example no_OK_replies :
  read_with_timeout 202 (one_read response_without_OK) 2000 epoch
  = Some (decode response_without_OK, {| clock := 2000; polls := 201 |}) /\
  read_with_timeout 202
    (one_read (framed (b "raw REPL") [] (b ">"))) 2000 epoch
  = Some (decode (framed (b "raw REPL") [] (b ">")),
          {| clock := 0; polls := 1 |}).
Proof. vm_compute. auto. Qed.

(** Without [OK] in the buffer the loop never reports execution output. *)
Lemma no_OK_no_execution_output (buffer : bytes) :
  ~ contains (b "OK") buffer ->
  check_completion (decode buffer) <> ExecutionOutput.
Proof.
  intros H. unfold check_completion.
  destruct (raw_repl_complete _); [discriminate|].
  destruct (execution_complete _) eqn:E; [|discriminate].
  unfold execution_complete in E. apply andb_true_iff in E.
  destruct E as [E _]. apply OK_in in E. contradiction.
Qed.

(** ** Delimiters (C4) *)

(** One delimiter next to [OK] is enough for the loop to stop. *)
Lemma one_delimiter_suffices (buffer : bytes) :
  contains (b "OK") buffer -> contains [DELIMITER] buffer ->
  check_completion (decode buffer) <> Incomplete.
Proof.
  intros H1 H2. unfold check_completion.
  destruct (raw_repl_complete _); [discriminate|].
  replace (execution_complete (decode buffer)) with true; [discriminate|].
  symmetry. unfold execution_complete.
  apply andb_true_iff. split; [now apply OK_in|].
  apply orb_true_iff. left. now apply delimiter_in.
Qed.

(** C4, as stated, fails: a reply with a single delimiter is accepted at
    once, no second delimiter being awaited; and a read that meets its
    deadline with one delimiter in the buffer returns the text it has, as it
    does with none. *)
Lemma one_delimiter_accepted :
  frame one_delimiter_reply = OneDelimiter (b "OK3") [] /\
  read_with_timeout 2 (one_read one_delimiter_reply) 2000 epoch
  = Some (decode one_delimiter_reply, {| clock := 0; polls := 1 |}) /\
  frame unmarked_partial_reply = OneDelimiter (b "3") [] /\
  read_with_timeout 202 (one_read unmarked_partial_reply) 2000 epoch
  = Some (decode unmarked_partial_reply, {| clock := 2000; polls := 201 |}).
Proof. vm_compute. auto. Qed.

(** C4, amended: [read_with_timeout] does not count delimiters.  While
    the read goes on, the round that begins before the deadline and whose
    read leaves [OK] and one 0x04 delimiter, or [OK] and [>], in the buffer
    ends the read there and then: the function returns the decoded text of
    the bytes received so far, without waiting for a second delimiter.  A
    round that begins at or after the deadline ends the read with the text
    received so far, whatever delimiters it holds.  And whenever the
    function returns, its result is the decoded text of all the bytes its
    reads brought: there is no outcome that tells one delimiter from none. *)
Theorem delimiters_are_not_counted
    (ch : channel) (timeout_ms : N) (w : world) (k : nat) :
  still_reading ch (polls w) timeout_ms k ->
  (rounds_time ch (polls w) k < timeout_ms ->
   forall d data,
   outcome (ch (polls w + k)%nat) = Returned (d :: data) ->
   contains (b "OK") (received ch (polls w) (S k)) ->
   contains [DELIMITER] (received ch (polls w) (S k)) \/
   contains (b ">") (received ch (polls w) (S k)) ->
   forall fuel,
   read_with_timeout (S k + fuel) ch timeout_ms w
   = Some (decode (received ch (polls w) (S k)),
           {| clock := clock w + rounds_time ch (polls w) k
                       + latency (ch (polls w + k)%nat);
              polls := (polls w + S k)%nat |})) /\
  (timeout_ms <= rounds_time ch (polls w) k ->
   forall fuel,
   read_with_timeout (S k + fuel) ch timeout_ms w
   = Some (decode (received ch (polls w) k),
           {| clock := clock w + rounds_time ch (polls w) k;
              polls := (polls w + k)%nat |})) /\
  (forall fuel txt w',
   read_with_timeout fuel ch timeout_ms w = Some (txt, w') ->
   exists n, polls w' = (polls w + n)%nat /\
             txt = decode (received ch (polls w) n)).
Proof.
  intros H. split; [|split].
  - intros C d data O HOK HD fuel.
    replace (S k + fuel)%nat with (k + S fuel)%nat by lia.
    rewrite read_with_timeout_rounds by exact H.
    assert (E : received ch (polls w) (S k)
                = received ch (polls w) k ++ d :: data).
    { replace (S k) with (k + 1)%nat by lia.
      now rewrite received_app, received_one, O. }
    rewrite (read_loop_accepts fuel ch (clock w) timeout_ms _ _ d data);
      cbn [clock polls].
    + rewrite E. now replace (polls w + S k)%nat with (S (polls w + k)) by lia.
    + lia.
    + exact O.
    + rewrite <- E. apply check_completion_completes. right. now split.
  - intros C fuel.
    replace (S k + fuel)%nat with (k + S fuel)%nat by lia.
    rewrite read_with_timeout_rounds by exact H.
    apply read_loop_deadline. cbn [clock]. lia.
  - intros fuel txt w' R. apply read_loop_received in R.
    destruct R as [n [P [T _]]]. now exists n.
Qed.

Lemma delimiters_are_not_counted_witness :
  (rounds_time late_one_delimiter (polls epoch) 1 < 2000 ->
   forall d data,
   outcome (late_one_delimiter (polls epoch + 1)%nat) = Returned (d :: data) ->
   contains (b "OK") (received late_one_delimiter (polls epoch) 2) ->
   contains [DELIMITER] (received late_one_delimiter (polls epoch) 2) \/
   contains (b ">") (received late_one_delimiter (polls epoch) 2) ->
   forall fuel,
   read_with_timeout (2 + fuel) late_one_delimiter 2000 epoch
   = Some (decode (received late_one_delimiter (polls epoch) 2),
           {| clock := clock epoch
                       + rounds_time late_one_delimiter (polls epoch) 1
                       + latency (late_one_delimiter (polls epoch + 1)%nat);
              polls := (polls epoch + 2)%nat |})) /\
  (2000 <= rounds_time late_one_delimiter (polls epoch) 1 ->
   forall fuel,
   read_with_timeout (2 + fuel) late_one_delimiter 2000 epoch
   = Some (decode (received late_one_delimiter (polls epoch) 1),
           {| clock := clock epoch
                       + rounds_time late_one_delimiter (polls epoch) 1;
              polls := (polls epoch + 1)%nat |})) /\
  (forall fuel txt w',
   read_with_timeout fuel late_one_delimiter 2000 epoch = Some (txt, w') ->
   exists n, polls w' = (polls epoch + n)%nat /\
             txt = decode (received late_one_delimiter (polls epoch) n)).
Proof.
  apply (delimiters_are_not_counted late_one_delimiter 2000 epoch 1).
  intros i Hi. assert (E : i = 0%nat) by lia. subst i.
  split; reflexivity.
Defined.

(** The reply cut after its first delimiter, brought by the second read,
    is returned by that read, ten milliseconds after the call. *)
Example late_one_delimiter_read :
  read_with_timeout 3 late_one_delimiter 2000 epoch
  = Some (decode one_delimiter_reply, {| clock := 10; polls := 2 |}).
Proof. vm_compute. reflexivity. Qed.

(** ** I/O failures (C5) *)

Lemma poll_hush (ch : channel) (w : world) :
  poll (hush ch) w =
  match poll ch w with
  | (Raised _, w1) => (Returned [], w1)
  | r => r
  end.
Proof.
  unfold poll, hush. destruct (outcome (ch (polls w))) eqn:O; simpl.
  - now rewrite O.
  - reflexivity.
Qed.

Lemma read_loop_hush (fuel : nat) (ch : channel) (start_time t : N) :
  forall buffer w,
  read_loop fuel (hush ch) start_time t buffer w =
  read_loop fuel ch start_time t buffer w.
Proof.
  induction fuel as [|fuel IH]; intros buffer w; [reflexivity|].
  cbn [read_loop]. rewrite poll_hush.
  destruct (clock w - start_time <? t); [|reflexivity].
  destruct (poll ch w) as [[[|d data] | e] w1]; cbv zeta; rewrite ?IH;
    reflexivity.
Qed.

Lemma csharp_style_loop_hush (fuel : nat) (ch : channel) (start_time : N) :
  forall response w,
  csharp_style_loop fuel (hush ch) start_time response w =
  csharp_style_loop fuel ch start_time response w.
Proof.
  induction fuel as [|fuel IH]; intros response w; [reflexivity|].
  cbn [csharp_style_loop]. rewrite poll_hush.
  destruct (clock w - start_time <? 1000); [|reflexivity].
  destruct (poll ch w) as [[[|d data] | e] w1]; cbv zeta; rewrite ?IH;
    reflexivity.
Qed.

(** C5, as stated, fails: the first poll raises, the loop sleeps and polls
    again, and the read returns the banner brought by the second poll. *)
Lemma failure_swallowed_and_retried :
  outcome (failure_then_banner 0%nat) = Raised OSError /\
  read_with_timeout 3 failure_then_banner 2000 epoch
  = Some (decode banner, {| clock := 10; polls := 2 |}).
Proof. vm_compute. auto. Qed.

(** C5, amended: an I/O failure raised by a poll is swallowed by the bare
    [except:].  When a round of a read that is still going on begins before
    the deadline and its poll raises, the read goes on with its buffer
    unchanged after the failed poll and a sleep of one poll interval; on a
    channel whose reads make progress the read then returns, not before it
    has made the failing poll, and the poll after it when the deadline has
    not passed by then; it ends on the completion test or at the deadline
    and returns the decoded text of all the bytes received.  So a read
    returns what it would have returned had every failing poll found no
    data, which also holds of the read of [test_csharp_style]. *)
Theorem io_failure_swallowed
    (ch : channel) (timeout_ms : N) (w : world) (k : nat) (e : exn) :
  (forall i, advances (ch i)) ->
  still_reading ch (polls w) timeout_ms k ->
  rounds_time ch (polls w) k < timeout_ms ->
  outcome (ch (polls w + k)%nat) = Raised e ->
  (forall fuel,
     read_with_timeout (S k + fuel) ch timeout_ms w
     = read_loop fuel ch (clock w) timeout_ms (received ch (polls w) k)
         {| clock := clock w + rounds_time ch (polls w) k
                     + latency (ch (polls w + k)%nat) + POLL_INTERVAL;
            polls := (polls w + S k)%nat |}) /\
  (exists fuel n w',
     read_with_timeout fuel ch timeout_ms w
     = Some (decode (received ch (polls w) n), w') /\
     polls w' = (polls w + n)%nat /\
     (k < n)%nat /\
     (rounds_time ch (polls w) k + latency (ch (polls w + k)%nat)
      + POLL_INTERVAL < timeout_ms -> (S k < n)%nat) /\
     (completes (received ch (polls w) n) \/
      timeout_ms <= clock w' - clock w)) /\
  (forall fuel,
     read_with_timeout fuel (hush ch) timeout_ms w
     = read_with_timeout fuel ch timeout_ms w /\
     test_csharp_style_read fuel (hush ch) w
     = test_csharp_style_read fuel ch w).
Proof.
  intros A H C O.
  assert (RT : rounds_time ch (polls w) (S k)
               = rounds_time ch (polls w) k
                 + latency (ch (polls w + k)%nat) + POLL_INTERVAL).
  { rewrite rounds_time_S. unfold round_time. rewrite O. lia. }
  assert (RC : received ch (polls w) (S k) = received ch (polls w) k).
  { replace (S k) with (k + 1)%nat by lia.
    now rewrite received_app, received_one, O, app_nil_r. }
  assert (H' : still_reading ch (polls w) timeout_ms (S k)).
  { intros i Hi. destruct (Nat.eq_dec i k) as [-> | N].
    - split; [exact C|]. rewrite RC.
      now apply still_reading_incomplete with timeout_ms.
    - apply H. lia. }
  assert (STEP : forall fuel,
     read_with_timeout (S k + fuel) ch timeout_ms w
     = read_loop fuel ch (clock w) timeout_ms (received ch (polls w) k)
         {| clock := clock w + rounds_time ch (polls w) k
                     + latency (ch (polls w + k)%nat) + POLL_INTERVAL;
            polls := (polls w + S k)%nat |}).
  { intros fuel. rewrite read_with_timeout_rounds by exact H'.
    rewrite RT, RC, !N.add_assoc. reflexivity. }
  split; [exact STEP|]. split.
  - set (w1 := {| clock := clock w + rounds_time ch (polls w) k
                           + latency (ch (polls w + k)%nat) + POLL_INTERVAL;
                  polls := (polls w + S k)%nat |}) in *.
    destruct (read_loop_terminates ch (clock w) timeout_ms A
                (N.to_nat timeout_ms) (received ch (polls w) k) w1)
      as [txt [w' R]]; [subst w1; cbn [clock]; lia | lia |].
    pose proof (read_loop_early _ _ _ _ _ _ _ _ R) as E.
    pose proof (read_loop_received _ _ _ _ _ _ _ _ R) as [n [P [T _]]].
    subst w1. cbn [clock polls] in *.
    assert (RN : received ch (polls w) (S k + n)
                 = received ch (polls w) k ++ received ch (polls w + S k) n).
    { now rewrite received_app, RC. }
    exists (S k + S (N.to_nat timeout_ms))%nat, (S k + n)%nat, w'.
    rewrite STEP, R, RN, <- T.
    split; [reflexivity|]. split; [lia|]. split; [lia|]. split.
    + intros L. apply read_loop_polls in R; cbn [clock polls] in *; lia.
    + destruct E as [E | E]; [left | now right].
      rewrite T in E. now apply check_completion_completes in E.
  - intros fuel. split; [apply read_loop_hush | apply csharp_style_loop_hush].
Qed.

Lemma failure_then_late_banner_advances (i : nat) :
  advances (failure_then_late_banner i).
Proof.
  destruct i as [|[|[|i]]]; unfold advances; simpl; try exact I. lia.
Qed.

Lemma io_failure_swallowed_witness :
  (forall fuel,
     read_with_timeout (1 + fuel) failure_then_late_banner 2000 epoch
     = read_loop fuel failure_then_late_banner (clock epoch) 2000
         (received failure_then_late_banner (polls epoch) 0)
         {| clock := clock epoch
                     + rounds_time failure_then_late_banner (polls epoch) 0
                     + latency (failure_then_late_banner (polls epoch + 0)%nat)
                     + POLL_INTERVAL;
            polls := (polls epoch + 1)%nat |}) /\
  (exists fuel n w',
     read_with_timeout fuel failure_then_late_banner 2000 epoch
     = Some (decode (received failure_then_late_banner (polls epoch) n), w') /\
     polls w' = (polls epoch + n)%nat /\
     (0 < n)%nat /\
     (rounds_time failure_then_late_banner (polls epoch) 0
      + latency (failure_then_late_banner (polls epoch + 0)%nat)
      + POLL_INTERVAL < 2000 -> (1 < n)%nat) /\
     (completes (received failure_then_late_banner (polls epoch) n) \/
      2000 <= clock w' - clock epoch)) /\
  (forall fuel,
     read_with_timeout fuel (hush failure_then_late_banner) 2000 epoch
     = read_with_timeout fuel failure_then_late_banner 2000 epoch /\
     test_csharp_style_read fuel (hush failure_then_late_banner) epoch
     = test_csharp_style_read fuel failure_then_late_banner epoch).
Proof.
  apply (io_failure_swallowed failure_then_late_banner 2000 epoch 0 OSError).
  - exact failure_then_late_banner_advances.
  - intros i Hi. lia.
  - reflexivity.
  - reflexivity.
Defined.

Example failure_then_late_banner_read :
  read_with_timeout 3 failure_then_late_banner 2000 epoch
  = Some (decode banner, {| clock := 11; polls := 2 |}).
Proof. vm_compute. reflexivity. Qed.

(** ** Deadlines (C6, C9) *)

(** On a channel that never has anything, the loop does nothing but sleep:
    after [k] rounds the clock has advanced by [k] poll intervals. *)
Lemma read_loop_silent (start_time t : N) (k : nat) :
  forall (buffer : bytes) (w : world),
  start_time <= clock w ->
  t <= clock w - start_time + POLL_INTERVAL * N.of_nat k ->
  clock w - start_time + POLL_INTERVAL * N.of_nat k < t + POLL_INTERVAL ->
  read_loop (S k) silent start_time t buffer w
  = Some (decode buffer,
          {| clock := clock w + POLL_INTERVAL * N.of_nat k;
             polls := polls w + k |}).
Proof.
  unfold POLL_INTERVAL.
  induction k as [|k IH]; intros buffer w Hs Hge Hlt.
  - simpl. replace (clock w - start_time <? t) with false
      by (symmetry; apply N.ltb_ge; lia).
    destruct w as [c p]. simpl. do 3 f_equal; lia.
  - change (read_loop (S (S k)) silent start_time t buffer w) with
      (if clock w - start_time <? t then
         read_loop (S k) silent start_time t buffer
           (sleep {| clock := clock w + 0; polls := S (polls w) |})
       else Some (decode buffer, w)).
    replace (clock w - start_time <? t) with true
      by (symmetry; apply N.ltb_lt; lia).
    rewrite IH; unfold sleep, POLL_INTERVAL; simpl clock; simpl polls;
      [|lia..].
    do 3 f_equal; lia.
Qed.

(** The read of test_duplex_stream.py runs on a descriptor in non-blocking
    mode, where a read takes no time to speak of: it is back before its two
    seconds and one poll interval have passed. *)
Lemma duplex_loop_in_time (ch : channel) (start_time : N) :
  (forall i, latency (ch i) = 0) ->
  forall (n : nat) (response : bytes) (w : world),
  start_time <= clock w ->
  clock w < start_time + 2000 + POLL_INTERVAL ->
  2000 <= clock w - start_time + POLL_INTERVAL * N.of_nat n ->
  exists r w',
    duplex_loop (S n) ch start_time response w = Some (r, w') /\
    clock w' < start_time + 2000 + POLL_INTERVAL.
Proof.
  unfold POLL_INTERVAL. intros L.
  induction n as [|n IH]; intros response w Hs Hlt Hge.
  - simpl. replace (clock w - start_time <? 2000) with false
      by (symmetry; apply N.ltb_ge; lia).
    eauto.
  - change (duplex_loop (S (S n)) ch start_time response w) with
      (if clock w - start_time <? 2000 then
         match poll ch w with
         | (Returned [], w1) =>
             duplex_loop (S n) ch start_time response (sleep w1)
         | (Returned data, w1) =>
             let response' := response ++ data in
             if raw_repl_complete (decode response')
             then Some (Done response', w1)
             else duplex_loop (S n) ch start_time response' (sleep w1)
         | (Raised BlockingIOError, w1) =>
             duplex_loop (S n) ch start_time response (sleep w1)
         | (Raised e, w1) => Some (Propagated e, w1)
         end
       else Some (Done response, w)).
    destruct (clock w - start_time <? 2000) eqn:C; [|eauto].
    apply N.ltb_lt in C. unfold poll. rewrite L.
    destruct (outcome (ch (polls w))) as [[|d data] | [|]].
    + apply IH; unfold sleep, POLL_INTERVAL; cbn [clock polls]; lia.
    + cbv zeta. destruct (raw_repl_complete _).
      * eexists _, _. split; [reflexivity | cbn [clock polls]; lia].
      * apply IH; unfold sleep, POLL_INTERVAL; cbn [clock polls]; lia.
    + apply IH; unfold sleep, POLL_INTERVAL; cbn [clock polls]; lia.
    + eexists _, _. split; [reflexivity | cbn [clock polls]; lia].
Qed.

Lemma duplex_read_in_time (ch : channel) (w : world) :
  (forall i, latency (ch i) = 0) ->
  exists r w',
    test_duplex_approach_read 201 ch w = Some (r, w') /\
    clock w' < clock w + 2000 + POLL_INTERVAL.
Proof.
  intros L. apply duplex_loop_in_time; unfold POLL_INTERVAL; try assumption; lia.
Qed.

(** C6, code at the failing input: on the blocking pipe of
    debug_csharp_protocol.py a device that stays quiet for five seconds keeps
    the first [read] waiting that long, and [read_with_timeout(proc, 2000)]
    returns at 5000 ms, past its deadline and one poll interval. *)
Theorem blocking_read_overruns_deadline :
  read_with_timeout 2 slow_device 2000 epoch
  = Some (lit "x", {| clock := 5000; polls := 1 |}) /\
  deadline epoch 2000 + POLL_INTERVAL < 5000.
Proof. vm_compute. auto. Qed.

(** C9, as stated, fails: the raw-mode entry read of [test_csharp_style]
    gives up after 1000 ms, below the 2000 ms named for the prompt class, and
    the execution read of debug_csharp_protocol.py, called with 2000, gives
    up after 2000 ms, below the 10000 ms named for executions. *)
Lemma reads_run_below_floor :
  test_csharp_style_read 101 silent epoch
  = Some ([], {| clock := 1000; polls := 100 |}) /\
  1000 < floor_ms prompt /\
  read_with_timeout 201 silent 2000 epoch
  = Some ([], {| clock := 2000; polls := 200 |}) /\
  2000 < floor_ms execution.
Proof. vm_compute. auto. Qed.

(** C9, amended: the deadline of a read is the timeout its caller passed,
    unchanged: on a channel that stays silent [read_with_timeout] gives up at
    the first poll boundary at or after [timeout_ms], for every value of
    [timeout_ms]; no floor by operation class is applied. *)
Theorem deadline_is_callers_timeout (timeout_ms : N) (k : nat) (w : world) :
  timeout_ms <= POLL_INTERVAL * N.of_nat k ->
  POLL_INTERVAL * N.of_nat k < timeout_ms + POLL_INTERVAL ->
  read_with_timeout (S k) silent timeout_ms w
  = Some ([], {| clock := clock w + POLL_INTERVAL * N.of_nat k;
                 polls := polls w + k |}).
Proof.
  intros Hge Hlt. unfold read_with_timeout.
  apply (read_loop_silent (clock w) timeout_ms k [] w); lia.
Qed.

Lemma deadline_is_callers_timeout_witness :
  500 <= POLL_INTERVAL * N.of_nat 50 /\
  POLL_INTERVAL * N.of_nat 50 < 500 + POLL_INTERVAL /\
  read_with_timeout 51 silent 500 epoch
  = Some ([], {| clock := clock epoch + POLL_INTERVAL * N.of_nat 50;
                 polls := polls epoch + 50 |}).
Proof.
  assert (H1 : 500 <= POLL_INTERVAL * N.of_nat 50) by (vm_compute; discriminate).
  assert (H2 : POLL_INTERVAL * N.of_nat 50 < 500 + POLL_INTERVAL)
    by reflexivity.
  split; [exact H1 | split; [exact H2 |]].
  exact (deadline_is_callers_timeout 500 50 epoch H1 H2).
Defined.

(** ** Slices *)

Lemma slices_concat (n fuel : nat) :
  (0 < n)%nat ->
  forall data, (List.length data <= fuel)%nat ->
  List.concat (slices fuel n data) = data.
Proof.
  intros Hn. induction fuel as [|fuel IH]; intros data Hl.
  - destruct data; [reflexivity | simpl in Hl; lia].
  - destruct data as [|d data]; [reflexivity|].
    cbn [slices List.concat]. rewrite IH.
    + apply firstn_skipn.
    + rewrite length_skipn. cbn [List.length] in *. lia.
Qed.

Lemma slices_nonempty (n fuel : nat) :
  (0 < n)%nat ->
  forall data, Forall (fun c => c <> []) (slices fuel n data).
Proof.
  intros Hn. induction fuel as [|fuel IH]; intros data; [constructor|].
  destruct data as [|d data]; [constructor|].
  cbn [slices]. constructor; [|apply IH].
  destruct n; [lia | discriminate].
Qed.

Lemma slice_payload_concat (n : nat) (data : bytes) :
  (0 < n)%nat -> List.concat (slice_payload n data) = data.
Proof. intros Hn. now apply slices_concat. Qed.

(** ** Best-effort drain (C10) *)

Lemma drain_loop_script (i : idle_behaviour) (ch : channel) :
  forall (chunks : list bytes) (data : bytes) (w : world),
  Forall (fun c => c <> []) chunks ->
  (forall j, ch (polls w + j)%nat = nth j (map now chunks) (idle_event i)) ->
  drain_loop (S (List.length chunks)) ch data w
  = Some (match i with
          | Fails => Propagated OSError
          | ReadsNothing | WouldBlock => Done (data ++ List.concat chunks)
          end,
          {| clock := clock w;
             polls := polls w + S (List.length chunks) |}).
Proof.
  induction chunks as [|c cs IH]; intros data w F H.
  - pose proof (H 0%nat) as H0. rewrite Nat.add_0_r in H0.
    cbn [drain_loop List.length]. unfold poll. rewrite H0.
    destruct i; simpl; rewrite N.add_0_r, ?app_nil_r, Nat.add_1_r;
      reflexivity.
  - pose proof (H 0%nat) as H0. rewrite Nat.add_0_r in H0.
    inversion F as [|? ? Hc F']; subst.
    change (drain_loop (S (List.length (c :: cs))) ch data w) with
      (match poll ch w with
       | (Returned [], w1) => Some (Done data, w1)
       | (Returned chunk, w1) =>
           drain_loop (S (List.length cs)) ch (data ++ chunk) w1
       | (Raised BlockingIOError, w1) => Some (Done data, w1)
       | (Raised e, w1) => Some (Propagated e, w1)
       end).
    unfold poll. rewrite H0. cbn [nth map now outcome latency].
    destruct c as [|d c]; [congruence|].
    rewrite IH; [|exact F'|].
    + cbn [clock polls List.concat List.length]. rewrite N.add_0_r, <- app_assoc.
      replace (S (polls w) + S (List.length cs))%nat
        with (polls w + S (S (List.length cs)))%nat by lia.
      reflexivity.
    + intros j. cbn [polls].
      replace (S (polls w) + j)%nat with (polls w + S j)%nat by lia.
      rewrite H. reflexivity.
Qed.

(** C10, as stated, fails: when a read fails with an error that is not
    [BlockingIOError], the drain lets it through to its caller. *)
Lemma drain_propagates_failure :
  read_available 2 (channel_of 1024 broken_pipe) epoch
  = Some (Propagated OSError, {| clock := 0; polls := 2 |}).
Proof. reflexivity. Qed.

(** C10, amended: the drain is total and raises to its caller only what a
    read raises other than [BlockingIOError]: for every state of the pipe,
    reading 1024 bytes at a time, it comes back after finitely many reads;
    when the pipe ends on an empty read or on [BlockingIOError] it returns
    the decoded text of all the bytes that were waiting (the empty text if
    there were none), and an error otherwise. *)
Theorem read_available_total (p : pipe) :
  exists fuel w',
    read_available fuel (channel_of 1024 p) epoch
    = Some (match idle p with
            | ReadsNothing | WouldBlock => Done (decode (pending p))
            | Fails => Propagated OSError
            end, w').
Proof.
  pose proof (drain_loop_script (idle p) (channel_of 1024 p)
                (slice_payload 1024 (pending p)) [] epoch) as D.
  rewrite slice_payload_concat in D by lia. simpl app in D.
  exists (S (List.length (slice_payload 1024 (pending p)))). eexists.
  unfold read_available. rewrite D.
  - destruct (idle p); try reflexivity;
      destruct (pending p); reflexivity.
  - apply slices_nonempty. lia.
  - intros j. reflexivity.
Qed.

(** ** The error channel (C3) *)

Lemma not_in_eqb (x : byte) (l : bytes) :
  existsb (Byte.eqb x) l = false -> ~ In x l.
Proof.
  intros H I. assert (E : existsb (Byte.eqb x) l = true).
  { apply existsb_exists. exists x. split; [exact I|].
    apply Byte.byte_dec_lb. reflexivity. }
  congruence.
Qed.

Lemma split_delimiter_app (out r : bytes) :
  ~ In DELIMITER out ->
  split_delimiter (out ++ DELIMITER :: r) = Some (out, r).
Proof.
  induction out as [|c out IH]; intros H; [reflexivity|].
  simpl. destruct (Byte.eqb c DELIMITER) eqn:E.
  - apply Byte.byte_dec_bl in E. subst c. exfalso. apply H. now left.
  - rewrite IH; [reflexivity|]. intros I. apply H. now right.
Qed.

(** The engine finds stdout and stderr of a framed response. *)
Lemma frame_framed (out err rest : bytes) :
  ~ In DELIMITER out -> ~ In DELIMITER err ->
  frame (framed out err rest) = Framed out err rest.
Proof.
  intros Ho He. unfold frame, framed.
  now rewrite split_delimiter_app, split_delimiter_app.
Qed.

(** C3: the classified error of an execution depends on the bytes between
    the two delimiters only.  Two responses with the same stderr and
    different stdout, submitted code or duration, get the same classified
    error; with an empty stderr there is none, whatever stdout holds, and in
    particular for the stdout text "The test failed successfully - this is
    expected behavior". *)
Theorem classification_ignores_stdout
    (ErrorClassifier : text -> option ClassifiedError)
    (code1 code2 out1 out2 err rest1 rest2 : bytes) (took1 took2 : N) :
  ~ In DELIMITER out1 -> ~ In DELIMITER out2 -> ~ In DELIMITER err ->
  (exists r1 r2,
     execute_outcome_of ErrorClassifier code1 took1 (framed out1 err rest1)
     = Executed r1 /\
     execute_outcome_of ErrorClassifier code2 took2 (framed out2 err rest2)
     = Executed r2 /\
     stderr r1 = err /\ stderr r2 = err /\
     classified_error r1 = classified_error r2 /\
     (err = [] -> classified_error r1 = None)) /\
  (exists r,
     execute_outcome_of ErrorClassifier code1 took1
       (framed legitimate_output [] (b ">")) = Executed r /\
     classified_error r = None).
Proof.
  intros H1 H2 He. unfold execute_outcome_of. split.
  - rewrite !frame_framed by assumption.
    eexists _, _. repeat split. intros ->. reflexivity.
  - rewrite frame_framed; [|now apply not_in_eqb | intros []].
    eexists. split; reflexivity.
Qed.

Lemma classification_ignores_stdout_witness :
  (exists r1 r2,
     execute_outcome_of unknown_error (b "print(x)") 12
       (framed legitimate_output (b "NameError: name 'x' isn't defined") (b ">"))
     = Executed r1 /\
     execute_outcome_of unknown_error (b "x") 7
       (framed (b "OK") (b "NameError: name 'x' isn't defined") (b ">"))
     = Executed r2 /\
     stderr r1 = b "NameError: name 'x' isn't defined" /\
     stderr r2 = b "NameError: name 'x' isn't defined" /\
     classified_error r1 = classified_error r2 /\
     (b "NameError: name 'x' isn't defined" = [] -> classified_error r1 = None)) /\
  (exists r,
     execute_outcome_of unknown_error (b "print(x)") 12
       (framed legitimate_output [] (b ">")) = Executed r /\
     classified_error r = None).
Proof.
  apply (classification_ignores_stdout unknown_error);
    apply not_in_eqb; reflexivity.
Defined.

(** The two responses of the specification's end-to-end example. *)
Example execute_examples :
  execute_outcome_of unknown_error (b "1+2") 3 (framed (b "2") [] (b ">"))
  = Executed {| stdout := b "2"; stderr := []; elapsed := 3;
                classified_error := None |} /\
  exists e,
    execute_outcome_of unknown_error (b "1/0") 3
      (framed [] (b "ZeroDivisionError: divide by zero") (b ">"))
    = Executed {| stdout := []; stderr := b "ZeroDivisionError: divide by zero";
                  elapsed := 3; classified_error := Some e |} /\
    str_in (lit "ZeroDivisionError") (message e) = true.
Proof. split; [reflexivity|]. eexists. split; reflexivity. Qed.

(** ** Chunk sizes (C7) *)

Lemma chunk_size_for_within_bounds (size : N) :
  within_bounds (chunk_size_for size).
Proof.
  unfold within_bounds, chunk_size_for, MIN_CHUNK, MAX_CHUNK.
  destruct (size <=? 256); [lia|]. destruct (size <=? 1024); lia.
Qed.

(** Up to 1024 bytes the simplified rule of test_hardware.py picks the
    size that quick_test.py picks. *)
Lemma simplified_chunk_size_agrees (size : N) :
  size <= 1024 -> simplified_chunk_size size = chunk_size_for size.
Proof.
  intros H. unfold simplified_chunk_size, chunk_size_for.
  destruct (size <=? 256); [reflexivity|].
  apply N.leb_le in H. now rewrite H.
Qed.

Section Adaptation.

Variable threshold : N.
Variable grow_step shrink_step : N -> N.
Hypothesis grow_step_grows : forall size, size <= grow_step size.
Hypothesis shrink_step_shrinks : forall size, shrink_step size <= size.

Lemma grow_within_bounds (size : N) :
  within_bounds size -> within_bounds (grow grow_step size).
Proof.
  unfold within_bounds, grow, MIN_CHUNK, MAX_CHUNK. intros [Hl Hu].
  pose proof (grow_step_grows size). lia.
Qed.

Lemma shrink_within_bounds (size : N) :
  within_bounds size -> within_bounds (shrink shrink_step size).
Proof.
  unfold within_bounds, shrink, MIN_CHUNK, MAX_CHUNK. intros [Hl Hu].
  pose proof (shrink_step_shrinks size). lia.
Qed.

Lemma after_chunk_within_bounds (st : ChunkState) (r : chunk_report) :
  within_bounds (chunk_size st) ->
  within_bounds
    (chunk_size (after_chunk threshold grow_step shrink_step st r)).
Proof.
  intros H. destruct r as [throughput | |]; simpl.
  - destruct (threshold <? throughput);
      [now apply grow_within_bounds | exact H].
  - now apply shrink_within_bounds.
  - now apply shrink_within_bounds.
Qed.

Lemma fold_within_bounds (reports : list chunk_report) :
  forall st, within_bounds (chunk_size st) ->
  within_bounds
    (chunk_size
       (fold_left (after_chunk threshold grow_step shrink_step) reports st)).
Proof.
  induction reports as [|r reports IH]; intros st H; [exact H|].
  simpl. apply IH. now apply after_chunk_within_bounds.
Qed.

End Adaptation.

(** C7: the chunk size of the ChunkState is within [64, 512] in every
    reachable state.  Initialization gives 64 for a payload of at most 256
    bytes, 256 for at most 1024 bytes and 512 beyond; and after any sequence
    of chunk reports, each answered by a grow, a shrink or no change, the
    size is still between 64 and 512. *)
Theorem chunk_size_always_within_bounds
    (threshold : N) (grow_step shrink_step : N -> N)
    (payload_size : N) (reports : list chunk_report) :
  (forall size, size <= grow_step size) ->
  (forall size, shrink_step size <= size) ->
  (payload_size <= 256 -> chunk_size (initialize payload_size) = 64) /\
  (256 < payload_size <= 1024 -> chunk_size (initialize payload_size) = 256) /\
  (1024 < payload_size -> chunk_size (initialize payload_size) = 512) /\
  64 <= chunk_size
          (chunk_state_after threshold grow_step shrink_step
             payload_size reports) <= 512.
Proof.
  intros Hg Hs. unfold initialize, chunk_size_for. cbn [chunk_size].
  repeat split.
  - intros H. apply N.leb_le in H. now rewrite H.
  - intros [H1 H2]. apply N.leb_gt in H1. apply N.leb_le in H2.
    now rewrite H1, H2.
  - intros H. assert (H' : 256 < payload_size) by lia.
    apply N.leb_gt in H, H'. now rewrite H', H.
  - apply (fold_within_bounds threshold grow_step shrink_step Hg Hs).
    apply chunk_size_for_within_bounds.
  - apply (fold_within_bounds threshold grow_step shrink_step Hg Hs).
    apply chunk_size_for_within_bounds.
Qed.

Lemma halve_shrinks (size : N) : halve size <= size.
Proof.
  unfold halve. n_arith.
Qed.

Lemma chunk_size_always_within_bounds_witness :
  (8192 <= 256 -> chunk_size (initialize 8192) = 64) /\
  (256 < 8192 <= 1024 -> chunk_size (initialize 8192) = 256) /\
  (1024 < 8192 -> chunk_size (initialize 8192) = 512) /\
  64 <= chunk_size
          (chunk_state_after 100 double halve 8192
             [Acknowledged 200; MemoryErrorClassified; Acknowledged 50]) <= 512.
Proof.
  apply (chunk_size_always_within_bounds 100 double halve 8192).
  - intros size. unfold double. lia.
  - exact halve_shrinks.
Defined.

(** A transfer that meets a MemoryError shrinks for the retried chunk and
    goes on at the smaller size. *)
Example adaptation_example :
  map chunk_size
    [chunk_state_after 100 double halve 8192 [];
     chunk_state_after 100 double halve 8192 [Acknowledged 200];
     chunk_state_after 100 double halve 8192 [Acknowledged 200; MemoryErrorClassified];
     chunk_state_after 100 double halve 100
       [MemoryErrorClassified; ChunkFailed; Acknowledged 150]]
  = [512; 512; 256; 128].
Proof. reflexivity. Qed.

(** ** The base64 chunk path (C8) *)

Lemma to_N_lt (x : byte) : Byte.to_N x < 256.
Proof. pose proof (Byte.to_N_bounded x). lia. Qed.

Lemma byte_of_to_N (x : byte) : byte_of (Byte.to_N x) = x.
Proof. unfold byte_of. now rewrite Byte.of_to_N. Qed.

Lemma sextet_in (v : N) : v < 64 -> In v sextets.
Proof.
  intros H. unfold sextets. rewrite <- (N2Nat.id v).
  apply in_map, in_seq. lia.
Qed.

Lemma alphabet_table :
  forallb (fun v => match b64val (b64char v) with
                    | Some u => (u =? v) && negb (Byte.eqb (b64char v) PAD)
                    | None => false
                    end) sextets = true.
Proof. vm_compute. reflexivity. Qed.

(** Every digit is read back as the value it stands for, and no digit is
    the padding character. *)
Lemma b64val_b64char (v : N) :
  v < 64 -> b64val (b64char v) = Some v /\ Byte.eqb (b64char v) PAD = false.
Proof.
  intros H. pose proof alphabet_table as T.
  rewrite forallb_forall in T. specialize (T v (sextet_in v H)).
  destruct (b64val (b64char v)) as [u|]; [|discriminate].
  apply andb_true_iff in T. destruct T as [E P].
  apply N.eqb_eq in E. apply negb_true_iff in P. now subst u.
Qed.

Ltac digits :=
  repeat match goal with
  | |- context [b64val (b64char ?v)] =>
      let H := fresh in
      assert (H : v < 64) by n_arith;
      rewrite (proj1 (b64val_b64char v H));
      try rewrite (proj2 (b64val_b64char v H)); clear H
  end.

Lemma b64decode_encode_1 (x : byte) : b64decode (b64encode [x]) = Some [x].
Proof.
  pose proof (to_N_lt x) as Hx.
  cbn [b64encode b64decode]. digits.
  replace (Byte.eqb PAD PAD) with true by reflexivity.
  replace (Byte.to_N x / 4 * 4 + Byte.to_N x mod 4 * 16 / 16)
    with (Byte.to_N x) by n_arith.
  now rewrite byte_of_to_N.
Qed.

Lemma b64decode_encode_2 (x y : byte) :
  b64decode (b64encode [x; y]) = Some [x; y].
Proof.
  pose proof (to_N_lt x) as Hx. pose proof (to_N_lt y) as Hy.
  cbn [b64encode b64decode]. digits.
  replace (Byte.eqb PAD PAD) with true by reflexivity.
  replace (Byte.to_N x / 4 * 4 + (Byte.to_N x mod 4 * 16 + Byte.to_N y / 16) / 16)
    with (Byte.to_N x) by n_arith.
  replace ((Byte.to_N x mod 4 * 16 + Byte.to_N y / 16) mod 16 * 16
           + Byte.to_N y mod 16 * 4 / 4)
    with (Byte.to_N y) by n_arith.
  now rewrite !byte_of_to_N.
Qed.

Lemma b64decode_encode_3 (x y z : byte) (rest : bytes) :
  b64decode (b64encode (x :: y :: z :: rest)) =
  match b64decode (b64encode rest) with
  | Some tl => Some (x :: y :: z :: tl)
  | None => None
  end.
Proof.
  pose proof (to_N_lt x) as Hx. pose proof (to_N_lt y) as Hy.
  pose proof (to_N_lt z) as Hz.
  cbn [b64encode b64decode]. digits.
  replace (Byte.to_N x / 4 * 4 + (Byte.to_N x mod 4 * 16 + Byte.to_N y / 16) / 16)
    with (Byte.to_N x) by n_arith.
  replace ((Byte.to_N x mod 4 * 16 + Byte.to_N y / 16) mod 16 * 16
           + (Byte.to_N y mod 16 * 4 + Byte.to_N z / 64) / 4)
    with (Byte.to_N y) by n_arith.
  replace ((Byte.to_N y mod 16 * 4 + Byte.to_N z / 64) mod 4 * 64
           + Byte.to_N z mod 64)
    with (Byte.to_N z) by n_arith.
  now rewrite !byte_of_to_N.
Qed.

(** Decoding undoes encoding, for payloads of every length. *)
Lemma b64decode_encode (data : bytes) : b64decode (b64encode data) = Some data.
Proof.
  remember (List.length data) as n eqn:Hn. revert data Hn.
  induction n as [n IH] using lt_wf_ind. intros data Hn.
  destruct data as [|x [|y [|z rest]]].
  - reflexivity.
  - apply b64decode_encode_1.
  - apply b64decode_encode_2.
  - rewrite b64decode_encode_3.
    rewrite (IH (List.length rest)); [reflexivity | simpl in Hn; lia | reflexivity].
Qed.

Lemma receive_encoded (chunks : list bytes) :
  receive_chunks (map b64encode chunks) = Some (List.concat chunks).
Proof.
  induction chunks as [|c chunks IH]; [reflexivity|].
  cbn [map receive_chunks List.concat]. now rewrite b64decode_encode, IH.
Qed.

(** Cutting the encoded text every [4 * k] characters is encoding the
    payload cut every [3 * k] bytes. *)
Lemma firstn_skipn_b64encode (k : nat) :
  forall data,
  firstn (4 * k) (b64encode data) = b64encode (firstn (3 * k) data) /\
  skipn (4 * k) (b64encode data) = b64encode (skipn (3 * k) data).
Proof.
  induction k as [|k IH]; intros data.
  - split; reflexivity.
  - replace (4 * S k)%nat with (S (S (S (S (4 * k))))) by lia.
    replace (3 * S k)%nat with (S (S (S (3 * k)))) by lia.
    destruct data as [|x [|y [|z rest]]].
    + split; reflexivity.
    + cbn [b64encode firstn skipn]. rewrite firstn_nil, skipn_nil.
      split; reflexivity.
    + cbn [b64encode firstn skipn]. rewrite firstn_nil, skipn_nil.
      split; reflexivity.
    + destruct (IH rest) as [F K].
      cbn [b64encode firstn skipn]. rewrite F, K. split; reflexivity.
Qed.

Lemma b64encode_nil (data : bytes) : b64encode data = [] -> data = [].
Proof. destruct data as [|x [|y [|z rest]]]; [reflexivity | discriminate..]. Qed.

Lemma slices_b64encode (k : nat) :
  (0 < k)%nat ->
  forall (f2 f1 : nat) (data : bytes),
  (List.length (b64encode data) <= f1)%nat ->
  (List.length data <= f2)%nat ->
  slices f1 (4 * k) (b64encode data) = map b64encode (slices f2 (3 * k) data).
Proof.
  intros Hk. induction f2 as [|f2 IH]; intros f1 data H1 H2.
  - destruct data; [|simpl in H2; lia]. destruct f1; reflexivity.
  - destruct data as [|x data].
    + destruct f1; reflexivity.
    + destruct (firstn_skipn_b64encode k (x :: data)) as [F K].
      destruct (b64encode (x :: data)) as [|c enc] eqn:E.
      { apply b64encode_nil in E. discriminate. }
      destruct f1 as [|f1]; [simpl in H1; lia|].
      cbn [slices map]. rewrite F, K. f_equal. apply IH.
      * rewrite <- K, length_skipn. cbn [List.length] in *. lia.
      * rewrite length_skipn. cbn [List.length] in *. lia.
Qed.

(** The path of test_hardware.py, which encodes first and cuts afterwards,
    sends the chunks of the slice-then-encode path with slices of three
    bytes for every four characters. *)
Lemma send_encoded_send_chunks (k : nat) (payload : bytes) :
  (0 < k)%nat -> send_encoded (4 * k) payload = send_chunks (3 * k) payload.
Proof.
  intros Hk. unfold send_encoded, send_chunks, slice_payload.
  now apply slices_b64encode.
Qed.

(** C8: for every byte payload and each of the chunk sizes 64, 256 and 512,
    slicing the payload, base64-encoding each slice, then decoding the
    chunks and concatenating them gives back the payload, whether or not
    its length is a multiple of the chunk size; and so does the path of
    test_hardware.py, which encodes the payload and cuts the encoded text at
    the chunk size. *)
Theorem chunk_path_round_trip (chunk : nat) (payload : bytes) :
  In chunk [64; 256; 512]%nat ->
  receive_chunks (send_chunks chunk payload) = Some payload /\
  receive_chunks (send_encoded chunk payload) = Some payload.
Proof.
  intros H. split.
  - unfold send_chunks. rewrite receive_encoded.
    rewrite slice_payload_concat; [reflexivity|]. simpl in H. lia.
  - assert (K : exists k, (0 < k)%nat /\ chunk = (4 * k)%nat).
    { simpl in H. destruct H as [<- | [<- | [<- | []]]];
        [exists 16%nat | exists 64%nat | exists 128%nat]; split; lia. }
    destruct K as [k [Hk ->]].
    rewrite send_encoded_send_chunks by exact Hk.
    unfold send_chunks. rewrite receive_encoded.
    rewrite slice_payload_concat; [reflexivity | lia].
Qed.

Lemma chunk_path_round_trip_witness :
  receive_chunks (send_chunks 64 (b "The quick brown fox jumps over the lazy dog, and then it does so once more."))
  = Some (b "The quick brown fox jumps over the lazy dog, and then it does so once more.") /\
  receive_chunks (send_encoded 64 (b "The quick brown fox jumps over the lazy dog, and then it does so once more."))
  = Some (b "The quick brown fox jumps over the lazy dog, and then it does so once more.").
Proof.
  apply (chunk_path_round_trip 64). simpl. auto.
Defined.

(** A payload of 100 bytes goes out as two chunks of 64 and 36 bytes. *)
Example two_chunks :
  map (@List.length byte) (slice_payload 64 (repeat x41 100)) = [64; 36]%nat /\
  map (@List.length byte) (send_chunks 64 (repeat x41 100)) = [88; 48]%nat /\
  receive_chunks (send_chunks 64 (repeat x41 100)) = Some (repeat x41 100).
Proof. vm_compute. auto. Qed.

(** The number of chunks that test_hardware.py computes is the number of
    slices. *)
Lemma chunk_count_step (len size : N) :
  0 < len -> 0 < size ->
  chunk_count len size = 1 + chunk_count (len - size) size.
Proof.
  intros Hl Hs. unfold chunk_count.
  destruct (N.lt_ge_cases len size) as [Lt | Ge].
  - rewrite N.div_small, N.mod_small by exact Lt.
    replace (len - size) with 0 by lia.
    rewrite N.Div0.div_0_l, N.Div0.mod_0_l.
    replace (len =? 0) with false by (symmetry; apply N.eqb_neq; lia).
    reflexivity.
  - replace len with (len - size + 1 * size) at 1 2 by lia.
    rewrite N.div_add, N.Div0.mod_add by lia. lia.
Qed.

Lemma slices_count (size fuel : nat) :
  (0 < size)%nat ->
  forall data, (List.length data <= fuel)%nat ->
  N.of_nat (List.length (slices fuel size data))
  = chunk_count (N.of_nat (List.length data)) (N.of_nat size).
Proof.
  intros Hs. induction fuel as [|fuel IH]; intros data Hl.
  - destruct data; [reflexivity | simpl in Hl; lia].
  - destruct data as [|d data]; [reflexivity|].
    cbn [slices]. change (List.length (?x :: ?l)) with (S (List.length l)).
    rewrite Nat2N.inj_succ, IH.
    + rewrite (chunk_count_step (N.of_nat (S (List.length data)))) by lia.
      rewrite length_skipn, Nat2N.inj_sub.
      cbn [List.length]. lia.
    + rewrite length_skipn. cbn [List.length] in *. lia.
Qed.

Lemma send_encoded_count (size : nat) (payload : bytes) :
  (0 < size)%nat ->
  N.of_nat (List.length (send_encoded size payload))
  = chunk_count (N.of_nat (List.length (b64encode payload))) (N.of_nat size).
Proof. intros Hs. now apply slices_count. Qed.

(** ** The simulations of quick_test.py *)

(** The three prompts of the script end with the prompt byte; the first
    and the third satisfy the raw-mode entry test, the bare prompt does
    not. *)
Example test_prompts :
  map prompt_ends_ok
    [lit "raw REPL; CTRL-B to exit" ++ [13; 10] ++ lit ">";
     lit ">";
     lit "MicroPython v1.20.0" ++ [13; 10] ++ lit "raw REPL; CTRL-B to exit"
       ++ [13; 10] ++ lit ">"]
  = [true; true; true] /\
  map raw_repl_complete
    [lit "raw REPL; CTRL-B to exit" ++ [13; 10] ++ lit ">";
     lit ">";
     lit "MicroPython v1.20.0" ++ [13; 10] ++ lit "raw REPL; CTRL-B to exit"
       ++ [13; 10] ++ lit ">"]
  = [true; false; true].
Proof. split; reflexivity. Qed.

(** The rows the script prints for its three file sizes: chunks and total
    time in milliseconds. *)
Example test_files :
  map simulated_transfer [64; 512; 2048] = [(1, 10); (2, 16); (4, 24)].
Proof. reflexivity. Qed.

(** * Further properties of the scripts *)

(** ** The completion test of [read_with_timeout] *)

(** X1: the completion test is stable under more data.  Once the bytes
    of the buffer meet the test of [read_with_timeout], every longer buffer
    meets it too, whatever bytes follow, also bytes that are no valid UTF-8:
    a read that brings more than the awaited message cannot undo a
    completion. *)
Theorem completion_stable (buffer more : bytes) :
  check_completion (decode buffer) <> Incomplete ->
  check_completion (decode (buffer ++ more)) <> Incomplete.
Proof.
  rewrite !check_completion_complete,
    !raw_repl_complete_contains, !execution_complete_contains.
  intros [[H1 [H2 | H2]] | [H1 [H2 | H2]]];
    [left; split; [|left] | left; split; [|right]
    |right; split; [|left] | right; split; [|right]];
    now apply contains_app_r.
Qed.

Lemma completion_stable_witness :
  check_completion (decode (banner ++ [xe2; x82])) <> Incomplete.
Proof.
  apply (completion_stable banner [xe2; x82]). vm_compute. discriminate.
Defined.

(** ** Return before and after the deadline *)

(** X2: a return before the deadline is a completion.  Whenever
    [read_with_timeout] comes back while less than [timeout_ms] have passed,
    the text it returns meets the completion test. *)
Theorem early_return_is_complete
    (fuel : nat) (ch : channel) (timeout_ms : N) (w w' : world) (txt : text) :
  read_with_timeout fuel ch timeout_ms w = Some (txt, w') ->
  clock w' - clock w < timeout_ms ->
  check_completion txt <> Incomplete.
Proof.
  intros H Hlt. apply read_loop_early in H. destruct H as [H | H]; [exact H|].
  lia.
Qed.

Lemma early_return_is_complete_witness :
  check_completion (decode banner) <> Incomplete.
Proof.
  apply (early_return_is_complete 3 failure_then_banner 2000 epoch
           {| clock := 10; polls := 2 |}).
  - vm_compute. reflexivity.
  - vm_compute. reflexivity.
Defined.

Lemma read_loop_late (fuel : nat) (ch : channel) (start_time t limit : N) :
  (forall i, latency (ch i) <= limit) ->
  forall (buffer : bytes) (w : world) (txt : text) (w' : world),
  clock w < start_time + t + limit + POLL_INTERVAL ->
  read_loop fuel ch start_time t buffer w = Some (txt, w') ->
  clock w' < start_time + t + limit + POLL_INTERVAL.
Proof.
  intros L. unfold POLL_INTERVAL.
  induction fuel as [|fuel IH]; intros buffer w txt w' Hw H; [discriminate|].
  cbn [read_loop] in H.
  destruct (clock w - start_time <? t) eqn:C.
  2:{ injection H as <- <-. exact Hw. }
  apply N.ltb_lt in C. unfold poll in H. specialize (L (polls w)).
  destruct (outcome (ch (polls w))) as [[|d data] | e]; cbv zeta in H.
  - apply IH in H; [exact H|].
    unfold sleep, POLL_INTERVAL. cbn [clock polls]. lia.
  - destruct (check_completion _).
    3:{ apply IH in H; [exact H|]. cbn [clock polls]. lia. }
    all: injection H as <- <-; cbn [clock polls]; lia.
  - apply IH in H; [exact H|].
    unfold sleep, POLL_INTERVAL. cbn [clock polls]. lia.
Qed.

(** X3: how late [read_with_timeout] can be.  When every read call
    returns within [limit] milliseconds (and a read that brings data takes
    its millisecond), the function returns, and it does so less than
    [limit] plus one poll interval after its deadline. *)
Theorem read_with_timeout_lateness
    (ch : channel) (timeout_ms limit : N) (w : world) :
  (forall i, advances (ch i)) ->
  (forall i, latency (ch i) <= limit) ->
  exists fuel txt w',
    read_with_timeout fuel ch timeout_ms w = Some (txt, w') /\
    clock w' < deadline w timeout_ms + limit + POLL_INTERVAL.
Proof.
  intros A L.
  destruct (read_loop_terminates ch (clock w) timeout_ms A
              (N.to_nat timeout_ms) [] w) as [txt [w' R]]; [lia | lia |].
  exists (S (N.to_nat timeout_ms)), txt, w'. split; [exact R|].
  unfold deadline.
  eapply read_loop_late; [exact L | | exact R].
  unfold POLL_INTERVAL. lia.
Qed.

Lemma prompt_device_latency (i : nat) : latency (prompt_device i) <= 1.
Proof. destruct i as [|[|i]]; simpl; lia. Qed.

Lemma read_with_timeout_lateness_witness :
  exists fuel txt w',
    read_with_timeout fuel prompt_device 2000 epoch = Some (txt, w') /\
    clock w' < deadline epoch 2000 + 1 + POLL_INTERVAL.
Proof.
  apply (read_with_timeout_lateness prompt_device 2000 1 epoch).
  - exact prompt_device_advances.
  - exact prompt_device_latency.
Defined.

(** ** The read of test_duplex_stream.py *)

Lemma duplex_loop_returns (ch : channel) (start_time limit : N) :
  (forall i, latency (ch i) <= limit) ->
  forall (n : nat) (response : bytes) (w : world),
  start_time <= clock w ->
  clock w < start_time + 2000 + limit + POLL_INTERVAL ->
  2000 <= clock w - start_time + POLL_INTERVAL * N.of_nat n ->
  exists r w' k,
    duplex_loop (S n) ch start_time response w = Some (r, w') /\
    clock w' < start_time + 2000 + limit + POLL_INTERVAL /\
    polls w' = (polls w + k)%nat /\
    match r with
    | Done response' => response' = response ++ received ch (polls w) k
    | Propagated e =>
        e = OSError /\ (0 < k)%nat /\
        outcome (ch (polls w + k - 1)%nat) = Raised OSError
    end.
Proof.
  unfold POLL_INTERVAL. intros L.
  induction n as [|n IH]; intros response w Hs Hlt Hge.
  - simpl. replace (clock w - start_time <? 2000) with false
      by (symmetry; apply N.ltb_ge; lia).
    exists (Done response), w, 0%nat. simpl.
    rewrite Nat.add_0_r, app_nil_r. auto.
  - change (duplex_loop (S (S n)) ch start_time response w) with
      (if clock w - start_time <? 2000 then
         match poll ch w with
         | (Returned [], w1) =>
             duplex_loop (S n) ch start_time response (sleep w1)
         | (Returned data, w1) =>
             let response' := response ++ data in
             if raw_repl_complete (decode response')
             then Some (Done response', w1)
             else duplex_loop (S n) ch start_time response' (sleep w1)
         | (Raised BlockingIOError, w1) =>
             duplex_loop (S n) ch start_time response (sleep w1)
         | (Raised e, w1) => Some (Propagated e, w1)
         end
       else Some (Done response, w)).
    destruct (clock w - start_time <? 2000) eqn:C.
    2:{ exists (Done response), w, 0%nat. simpl.
        rewrite Nat.add_0_r, app_nil_r. auto. }
    apply N.ltb_lt in C. unfold poll. pose proof (L (polls w)) as Lw.
    pose proof (received_one ch (polls w)) as R1.
    assert (STEP : forall response1,
      response1 = response ++ received ch (polls w) 1 ->
      exists r w' k,
        duplex_loop (S n) ch start_time response1
          (sleep {| clock := clock w + latency (ch (polls w));
                    polls := S (polls w) |}) = Some (r, w') /\
        clock w' < start_time + 2000 + limit + 10 /\
        polls w' = (polls w + k)%nat /\
        match r with
        | Done response' => response' = response ++ received ch (polls w) k
        | Propagated e =>
            e = OSError /\ (0 < k)%nat /\
            outcome (ch (polls w + k - 1)%nat) = Raised OSError
        end).
    { intros response1 E.
      destruct (IH response1
                  (sleep {| clock := clock w + latency (ch (polls w));
                            polls := S (polls w) |}))
        as [r [w' [k [R [T [P M]]]]]];
        try (unfold sleep, POLL_INTERVAL; cbn [clock polls]; lia).
      exists r, w', (1 + k)%nat. split; [exact R|]. split; [exact T|].
      unfold sleep in P. cbn [polls] in P, M. split; [lia|].
      destruct r as [response' | e].
      - rewrite M, E, received_app, <- app_assoc.
        now replace (polls w + 1)%nat with (S (polls w)) by lia.
      - destruct M as [He [Hk Ho]]. split; [exact He|]. split; [lia|].
        now replace (polls w + (1 + k) - 1)%nat
          with (S (polls w) + k - 1)%nat by lia. }
    destruct (outcome (ch (polls w))) as [[|d data] | [|]] eqn:O.
    + apply STEP. now rewrite R1, app_nil_r.
    + cbv zeta. destruct (raw_repl_complete _).
      * eexists _, _, 1%nat. split; [reflexivity|]. cbn [clock polls].
        split; [lia|]. split; [lia|]. now rewrite R1.
      * apply STEP. now rewrite R1.
    + apply STEP. now rewrite R1, app_nil_r.
    + eexists _, _, 1%nat. split; [reflexivity|]. cbn [clock polls].
      split; [lia|]. split; [lia|]. split; [reflexivity|]. split; [lia|].
      now replace (polls w + 1 - 1)%nat with (polls w) by lia.
Qed.

(** X4: the read of [test_duplex_approach] always comes back, and in
    time.  On every channel whose read calls return within [limit]
    milliseconds, 201 rounds are enough and the read ends less than [limit]
    plus one poll interval after its two seconds. *)
Theorem duplex_read_lateness (ch : channel) (limit : N) (w : world) :
  (forall i, latency (ch i) <= limit) ->
  exists r w',
    test_duplex_approach_read 201 ch w = Some (r, w') /\
    clock w' < clock w + 2000 + limit + POLL_INTERVAL.
Proof.
  intros L.
  assert (F : 2000 <= clock w - clock w + POLL_INTERVAL * N.of_nat 200).
  { replace (N.of_nat 200) with 200 by reflexivity. unfold POLL_INTERVAL. lia. }
  destruct (duplex_loop_returns ch (clock w) limit L 200 [] w
              (N.le_refl _) ltac:(unfold POLL_INTERVAL; lia) F)
    as [r [w' [k [R [T _]]]]].
  exists r, w'. split; [exact R | exact T].
Qed.

Lemma slow_device_latency (i : nat) : latency (slow_device i) <= 5000.
Proof. destruct i as [|[|i]]; simpl; lia. Qed.

Lemma duplex_read_lateness_witness :
  exists r w',
    test_duplex_approach_read 201 slow_device epoch = Some (r, w') /\
    clock w' < clock epoch + 2000 + 5000 + POLL_INTERVAL.
Proof.
  apply (duplex_read_lateness slow_device 5000 epoch).
  exact slow_device_latency.
Defined.

Lemma duplex_loop_result (ch : channel) (start_time : N) :
  forall (n : nat) (response : bytes) (w : world),
  start_time <= clock w ->
  2000 <= clock w - start_time + POLL_INTERVAL * N.of_nat n ->
  exists r w' k,
    duplex_loop (S n) ch start_time response w = Some (r, w') /\
    polls w' = (polls w + k)%nat /\
    match r with
    | Done response' => response' = response ++ received ch (polls w) k
    | Propagated e =>
        e = OSError /\ (0 < k)%nat /\
        outcome (ch (polls w + k - 1)%nat) = Raised OSError
    end.
Proof.
  unfold POLL_INTERVAL.
  induction n as [|n IH]; intros response w Hs Hge.
  - simpl. replace (clock w - start_time <? 2000) with false
      by (symmetry; apply N.ltb_ge; lia).
    exists (Done response), w, 0%nat. simpl.
    rewrite Nat.add_0_r, app_nil_r. auto.
  - change (duplex_loop (S (S n)) ch start_time response w) with
      (if clock w - start_time <? 2000 then
         match poll ch w with
         | (Returned [], w1) =>
             duplex_loop (S n) ch start_time response (sleep w1)
         | (Returned data, w1) =>
             let response' := response ++ data in
             if raw_repl_complete (decode response')
             then Some (Done response', w1)
             else duplex_loop (S n) ch start_time response' (sleep w1)
         | (Raised BlockingIOError, w1) =>
             duplex_loop (S n) ch start_time response (sleep w1)
         | (Raised e, w1) => Some (Propagated e, w1)
         end
       else Some (Done response, w)).
    destruct (clock w - start_time <? 2000) eqn:C.
    2:{ exists (Done response), w, 0%nat. simpl.
        rewrite Nat.add_0_r, app_nil_r. auto. }
    apply N.ltb_lt in C. unfold poll.
    pose proof (received_one ch (polls w)) as R1.
    assert (STEP : forall response1,
      response1 = response ++ received ch (polls w) 1 ->
      exists r w' k,
        duplex_loop (S n) ch start_time response1
          (sleep {| clock := clock w + latency (ch (polls w));
                    polls := S (polls w) |}) = Some (r, w') /\
        polls w' = (polls w + k)%nat /\
        match r with
        | Done response' => response' = response ++ received ch (polls w) k
        | Propagated e =>
            e = OSError /\ (0 < k)%nat /\
            outcome (ch (polls w + k - 1)%nat) = Raised OSError
        end).
    { intros response1 E.
      destruct (IH response1
                  (sleep {| clock := clock w + latency (ch (polls w));
                            polls := S (polls w) |}))
        as [r [w' [k [R [P M]]]]];
        try (unfold sleep, POLL_INTERVAL; cbn [clock polls]; lia).
      exists r, w', (1 + k)%nat. split; [exact R|].
      unfold sleep in P. cbn [polls] in P, M. split; [lia|].
      destruct r as [response' | e].
      - rewrite M, E, received_app, <- app_assoc.
        now replace (polls w + 1)%nat with (S (polls w)) by lia.
      - destruct M as [He [Hk Ho]]. split; [exact He|]. split; [lia|].
        now replace (polls w + (1 + k) - 1)%nat
          with (S (polls w) + k - 1)%nat by lia. }
    destruct (outcome (ch (polls w))) as [[|d data] | [|]] eqn:O.
    + apply STEP. now rewrite R1, app_nil_r.
    + cbv zeta. destruct (raw_repl_complete _).
      * eexists _, _, 1%nat. split; [reflexivity|]. cbn [clock polls].
        split; [lia|]. now rewrite R1.
      * apply STEP. now rewrite R1.
    + apply STEP. now rewrite R1, app_nil_r.
    + eexists _, _, 1%nat. split; [reflexivity|]. cbn [clock polls].
      split; [lia|]. split; [reflexivity|]. split; [lia|].
      now replace (polls w + 1 - 1)%nat with (polls w) by lia.
Qed.

(** X5: what the read of [test_duplex_approach] hands back.  On every
    channel it returns within 201 rounds, with the bytes of all the reads it
    made, in order; the only way out of it by an exception is a read that
    raised an error other than [BlockingIOError], and that read is then the
    last one made. *)
Theorem duplex_read_result (ch : channel) (w : world) :
  exists r w' k,
    test_duplex_approach_read 201 ch w = Some (r, w') /\
    polls w' = (polls w + k)%nat /\
    match r with
    | Done response => response = received ch (polls w) k
    | Propagated e =>
        e = OSError /\ (0 < k)%nat /\
        outcome (ch (polls w + k - 1)%nat) = Raised OSError
    end.
Proof.
  assert (F : 2000 <= clock w - clock w + POLL_INTERVAL * N.of_nat 200).
  { replace (N.of_nat 200) with 200 by reflexivity. unfold POLL_INTERVAL. lia. }
  destruct (duplex_loop_result ch (clock w) 200 [] w (N.le_refl _) F)
    as [r [w' [k [R [P M]]]]].
  exists r, w', k. split; [exact R|]. split; [exact P | exact M].
Qed.

(** ** The byte-wise read of test_raw_repl_flow.py *)

Lemma raw_repl_flow_loop_returns (ch : channel) (start_time : N) :
  byte_reads ch ->
  forall (n : nat) (output : bytes) (w : world),
  start_time <= clock w ->
  2000 <= clock w - start_time + POLL_INTERVAL * N.of_nat n ->
  raw_repl_flow_complete output = false ->
  exists out w',
    raw_repl_flow_loop (S n) ch start_time output w = Some (out, w') /\
    (List.length out <= List.length output + n)%nat /\
    (raw_repl_flow_complete out = true ->
     exists prev c, out = prev ++ [c] /\ raw_repl_flow_complete prev = false).
Proof.
  unfold POLL_INTERVAL. intros B.
  induction n as [|n IH]; intros output w Hs Hge Hinc.
  - simpl. replace (clock w - start_time <? 2000) with false
      by (symmetry; apply N.ltb_ge; lia).
    exists output, w. split; [reflexivity|]. split; [lia|]. congruence.
  - change (raw_repl_flow_loop (S (S n)) ch start_time output w) with
      (if clock w - start_time <? 2000 then
         match poll ch w with
         | (Returned [], w1) =>
             raw_repl_flow_loop (S n) ch start_time output (sleep w1)
         | (Returned byte, w1) =>
             let output' := output ++ byte in
             if raw_repl_flow_complete output' then Some (output', w1)
             else raw_repl_flow_loop (S n) ch start_time output' (sleep w1)
         | (Raised _, w1) =>
             raw_repl_flow_loop (S n) ch start_time output (sleep w1)
         end
       else Some (output, w)).
    destruct (clock w - start_time <? 2000) eqn:C.
    2:{ exists output, w. split; [reflexivity|]. split; [lia|]. congruence. }
    apply N.ltb_lt in C. unfold poll. specialize (B (polls w)).
    assert (STAY : exists out w',
      raw_repl_flow_loop (S n) ch start_time output
        (sleep {| clock := clock w + latency (ch (polls w));
                  polls := S (polls w) |}) = Some (out, w') /\
      (List.length out <= List.length output + S n)%nat /\
      (raw_repl_flow_complete out = true ->
       exists prev c, out = prev ++ [c] /\
                      raw_repl_flow_complete prev = false)).
    { destruct (IH output
                  (sleep {| clock := clock w + latency (ch (polls w));
                            polls := S (polls w) |}))
        as [out [w' [R [Hl Hm]]]];
        try (unfold sleep, POLL_INTERVAL; cbn [clock polls]; lia);
        [exact Hinc|].
      exists out, w'. split; [exact R|]. split; [lia | exact Hm]. }
    destruct (outcome (ch (polls w))) as [[|c [|c' data]] | e].
    + exact STAY.
    + cbv zeta. destruct (raw_repl_flow_complete (output ++ [c])) eqn:K.
      * exists (output ++ [c]), {| clock := clock w + latency (ch (polls w));
                                   polls := S (polls w) |}.
        split; [reflexivity|]. rewrite length_app. cbn [List.length].
        split; [lia|]. intros _. now exists output, c.
      * destruct (IH (output ++ [c])
                    (sleep {| clock := clock w + latency (ch (polls w));
                              polls := S (polls w) |}))
          as [out [w' [R [Hl Hm]]]];
          try (unfold sleep, POLL_INTERVAL; cbn [clock polls]; lia);
          [exact K|].
        exists out, w'. split; [exact R|].
        rewrite length_app in Hl. cbn [List.length] in Hl.
        split; [lia | exact Hm].
    + cbn [List.length] in B. lia.
    + exact STAY.
Qed.

Lemma test_raw_repl_read_returns (ch : channel) (w : world) :
  byte_reads ch ->
  exists out w',
    test_raw_repl_read 201 ch w = Some (out, w') /\
    (List.length out <= 200)%nat /\
    (raw_repl_flow_complete out = true ->
     exists prev c, out = prev ++ [c] /\ raw_repl_flow_complete prev = false).
Proof.
  intros B.
  assert (F : 2000 <= clock w - clock w + POLL_INTERVAL * N.of_nat 200).
  { replace (N.of_nat 200) with 200 by reflexivity. unfold POLL_INTERVAL. lia. }
  destruct (raw_repl_flow_loop_returns ch (clock w) B 200 [] w
              (N.le_refl _) F eq_refl) as [out [w' [R [Hl Hm]]]].
  exists out, w'. split; [exact R|]. split; [exact Hl | exact Hm].
Qed.

Lemma bytewise_byte_reads (data : bytes) : byte_reads (bytewise data).
Proof.
  intros i. unfold bytewise, script.
  destruct (nth_in_or_default i (map (fun c => now [c]) data) nothing)
    as [I | E].
  - apply in_map_iff in I. destruct I as [c [<- _]]. simpl. lia.
  - rewrite E. simpl. lia.
Qed.

(** Every round that does not end the loop sleeps, so the rounds left
    bound the bytes that can still be taken in. *)
Lemma raw_repl_flow_loop_bound (ch : channel) (start_time : N) :
  byte_reads ch ->
  forall (fuel n : nat) (output : bytes) (w : world) (out : bytes) (w' : world),
  start_time <= clock w ->
  2000 <= clock w - start_time + POLL_INTERVAL * N.of_nat n ->
  raw_repl_flow_loop fuel ch start_time output w = Some (out, w') ->
  (List.length out <= List.length output + n)%nat.
Proof.
  unfold POLL_INTERVAL. intros B.
  induction fuel as [|fuel IH]; intros n output w out w' Hs Hge H;
    [discriminate|].
  cbn [raw_repl_flow_loop] in H.
  destruct (clock w - start_time <? 2000) eqn:C.
  2:{ injection H as <- <-. lia. }
  apply N.ltb_lt in C.
  destruct n as [|n]; [cbn [N.of_nat] in Hge; lia|].
  rewrite Nat2N.inj_succ in Hge.
  unfold poll in H. specialize (B (polls w)).
  destruct (outcome (ch (polls w))) as [[|c [|c' data]] | e]; cbv zeta in H.
  - apply (IH n) in H; [lia | |];
      unfold sleep, POLL_INTERVAL; cbn [clock polls]; lia.
  - destruct (raw_repl_flow_complete (output ++ [c])).
    + injection H as <- <-. rewrite length_app. cbn [List.length]. lia.
    + apply (IH n) in H;
        [rewrite length_app in H; cbn [List.length] in H; lia | |];
        unfold sleep, POLL_INTERVAL; cbn [clock polls]; lia.
  - cbn [List.length] in B. lia.
  - apply (IH n) in H; [lia | |];
      unfold sleep, POLL_INTERVAL; cbn [clock polls]; lia.
Qed.

(** X6: the byte-wise read of [test_raw_repl] takes in at most 200
    bytes.  It sleeps one poll interval after every round that does not end
    it, so that its two seconds leave room for 200 reads of one byte:
    whatever the read returns, after however many rounds, is never longer
    than 200 bytes; and provided every [read(1)] comes back, as the reads of
    a channel do, 201 rounds are enough for it to return.  (On the blocking
    pipe of the script a read with nothing waiting does not come back, and
    the loop with it.) *)
Theorem byte_wise_read_takes_200_bytes (ch : channel) (w : world) :
  byte_reads ch ->
  (forall fuel out w',
     test_raw_repl_read fuel ch w = Some (out, w') ->
     (List.length out <= 200)%nat) /\
  (exists out w', test_raw_repl_read 201 ch w = Some (out, w')).
Proof.
  intros B. split.
  - intros fuel out w' H.
    assert (F : 2000 <= clock w - clock w + POLL_INTERVAL * N.of_nat 200).
    { replace (N.of_nat 200) with 200 by reflexivity.
      unfold POLL_INTERVAL. lia. }
    exact (raw_repl_flow_loop_bound ch (clock w) B fuel 200 [] w out w'
             (N.le_refl _) F H).
  - destruct (test_raw_repl_read_returns ch w B) as [out [w' [R _]]].
    now exists out, w'.
Qed.

Lemma byte_wise_read_takes_200_bytes_witness :
  (forall fuel out w',
     test_raw_repl_read fuel (bytewise (banner ++ b "OK")) epoch
     = Some (out, w') ->
     (List.length out <= 200)%nat) /\
  (exists out w',
     test_raw_repl_read 201 (bytewise (banner ++ b "OK")) epoch
     = Some (out, w')).
Proof.
  apply (byte_wise_read_takes_200_bytes (bytewise (banner ++ b "OK")) epoch).
  apply bytewise_byte_reads.
Defined.

(** X7: the byte-wise read of [test_raw_repl] stops at the first byte
    that completes its test.  When the bytes it returns contain the prompt
    byte and [raw REPL], they no longer do once their last byte is taken
    away: nothing of what follows the banner is consumed. *)
Theorem byte_wise_read_stops_at_first (ch : channel) (w : world) :
  byte_reads ch ->
  exists out w',
    test_raw_repl_read 201 ch w = Some (out, w') /\
    (raw_repl_flow_complete out = true ->
     exists prev c, out = prev ++ [c] /\ raw_repl_flow_complete prev = false).
Proof.
  intros B. destruct (test_raw_repl_read_returns ch w B)
    as [out [w' [R [_ Hm]]]].
  now exists out, w'.
Qed.

Lemma byte_wise_read_stops_at_first_witness :
  exists out w',
    test_raw_repl_read 201 (bytewise (banner ++ b "OK")) epoch
    = Some (out, w') /\
    (raw_repl_flow_complete out = true ->
     exists prev c, out = prev ++ [c] /\ raw_repl_flow_complete prev = false).
Proof.
  apply (byte_wise_read_stops_at_first (bytewise (banner ++ b "OK")) epoch).
  apply bytewise_byte_reads.
Defined.

Example byte_wise_read_of_banner :
  test_raw_repl_read 201 (bytewise (banner ++ b "OK")) epoch
  = Some (banner, {| clock := 260; polls := 27 |}).
Proof. vm_compute. reflexivity. Qed.

(** ** The verdict of test_csharp_style *)

Lemma starts_with_replace (c : N) (r0 : N) (r p s : text) :
  ~ In c p -> ~ In r0 p ->
  starts_with p (replace_char c (r0 :: r) s) = starts_with p s.
Proof.
  revert s. induction p as [|a p IH]; intros s Hc Hr; [reflexivity|].
  destruct s as [|x s]; [reflexivity|].
  unfold replace_char. cbn [flat_map]. fold (replace_char c (r0 :: r) s).
  destruct (x =? c) eqn:E.
  - apply N.eqb_eq in E. subst x. cbn [app starts_with].
    replace (a =? r0) with false
      by (symmetry; apply N.eqb_neq; intros ->; apply Hr; now left).
    replace (a =? c) with false
      by (symmetry; apply N.eqb_neq; intros ->; apply Hc; now left).
    reflexivity.
  - cbn [app starts_with]. rewrite IH; [reflexivity | |];
      intros I; [apply Hc | apply Hr]; now right.
Qed.

Lemma str_in_skip (a : N) (p skipped s : text) :
  ~ In a skipped ->
  str_in (a :: p) (skipped ++ s) = str_in (a :: p) s.
Proof.
  induction skipped as [|x skipped IH]; intros H; [reflexivity|].
  cbn [app str_in starts_with].
  replace (a =? x) with false
    by (symmetry; apply N.eqb_neq; intros ->; apply H; now left).
  cbn [andb orb]. apply IH. intros I. apply H. now right.
Qed.

(** Replacing a character that is not in the needle by characters that are
    not in it either neither makes nor breaks an occurrence. *)
Lemma str_in_replace (c : N) (r0 : N) (r : text) (a : N) (p s : text) :
  ~ In c (a :: p) -> (forall x, In x (r0 :: r) -> ~ In x (a :: p)) ->
  str_in (a :: p) (replace_char c (r0 :: r) s) = str_in (a :: p) s.
Proof.
  intros Hc Hr. induction s as [|x s IH]; [reflexivity|].
  assert (P : starts_with (a :: p) (replace_char c (r0 :: r) (x :: s))
              = starts_with (a :: p) (x :: s)).
  { apply starts_with_replace; [exact Hc|]. apply Hr. now left. }
  unfold replace_char in *. cbn [flat_map] in *.
  destruct (x =? c) eqn:E.
  - apply N.eqb_eq in E. subst x.
    rewrite str_in_skip.
    + rewrite IH. cbn [str_in starts_with].
      replace (a =? c) with false
        by (symmetry; apply N.eqb_neq; intros ->; apply Hc; now left).
      reflexivity.
    + intros I. apply (Hr a I). now left.
  - cbn [app] in *. cbn [str_in]. rewrite P. now rewrite IH.
Qed.

Lemma verdict_text (needle : text) (a : N) (p : text) (result : bytes) :
  needle = a :: p ->
  ~ In 13 needle -> ~ In 10 needle -> ~ In 0x5C needle ->
  ~ In 0x72 needle -> ~ In 0x6E needle ->
  str_in needle
    (replace_char 10 [0x5C; 0x6E] (replace_char 13 [0x5C; 0x72] (decode result)))
  = str_in needle (decode result).
Proof.
  intros -> H13 H10 Hb Hr Hn.
  rewrite str_in_replace, str_in_replace; try assumption; try reflexivity.
  - intros x [<- | [<- | []]]; assumption.
  - intros x [<- | [<- | []]]; assumption.
Qed.

Lemma two_in (bs : bytes) :
  str_in (lit "2") (decode bs) = true <-> contains (b "2") bs.
Proof. apply in_decode_bytes; [ascii_literal | discriminate]. Qed.

(** X8: the verdict of [test_csharp_style] in terms of the bytes read.
    The escaping of carriage returns and line feeds done for display does
    not bear on it: the test passes exactly when the bytes read after the
    request contain [OK] and contain the digit [2]. *)
Theorem csharp_style_verdict_bytes (result : bytes) :
  test_csharp_style_verdict result = true <->
  contains (b "OK") result /\ contains (b "2") result.
Proof.
  unfold test_csharp_style_verdict. cbv zeta.
  rewrite (verdict_text (lit "OK") 0x4F [0x4B] result eq_refl),
          (verdict_text (lit "2") 0x32 [] result eq_refl);
    try (vm_compute; intuition discriminate).
  now rewrite andb_true_iff, OK_in, two_in.
Qed.

(** ** The three tests of raw-mode entry *)

(** X9: the scripts' tests for the banner are strictly ordered.  What
    test_raw_repl_flow.py accepts (prompt byte and [raw REPL]) is accepted by
    [read_with_timeout] and test_duplex_stream.py ([raw REPL] with [CTRL-B]
    or the prompt byte), and what these accept is accepted by
    [test_csharp_style] ([raw REPL] alone); neither converse holds. *)
Theorem entry_tests_ordered :
  (forall output : bytes,
     raw_repl_flow_complete output = true ->
     raw_repl_complete (decode output) = true) /\
  (forall output : bytes,
     raw_repl_complete (decode output) = true ->
     str_in (lit "raw REPL") (decode output) = true) /\
  (exists output : bytes,
     raw_repl_complete (decode output) = true /\
     raw_repl_flow_complete output = false) /\
  (exists output : bytes,
     str_in (lit "raw REPL") (decode output) = true /\
     raw_repl_complete (decode output) = false).
Proof.
  split; [exact raw_repl_flow_accepts|]. split.
  - intros output H. unfold raw_repl_complete in H.
    apply andb_true_iff in H. tauto.
  - split.
    + exists (b "raw REPL; CTRL-B to exit"). split; reflexivity.
    + exists (b "raw REPL"). split; reflexivity.
Qed.

(** ** The encoded text of test_hardware.py *)

Lemma length_b64encode (data : bytes) :
  List.length (b64encode data) = (4 * ((List.length data + 2) / 3))%nat.
Proof.
  remember (List.length data) as n eqn:Hn. revert data Hn.
  induction n as [n IH] using lt_wf_ind. intros data Hn.
  destruct data as [|x [|y [|z rest]]]; try (subst n; reflexivity).
  cbn [b64encode List.length] in *.
  rewrite (IH (List.length rest)) by (lia || reflexivity).
  subst n.
  replace (S (S (S (List.length rest))) + 2)%nat
    with (List.length rest + 2 + 1 * 3)%nat by lia.
  rewrite Nat.div_add by discriminate. lia.
Qed.

(** X10: the size of what test_hardware.py sends.  The base64 text of a
    payload of [n] bytes has [4 * ceil(n / 3)] characters, and the number of
    chunks the script computes from it, [len // chunk_size] plus one if
    there is a remainder, is the number of pieces of [chunk_size] characters
    the text falls into. *)
Theorem encoded_length_and_chunk_count (chunk : nat) (payload : bytes) :
  (0 < chunk)%nat ->
  List.length (b64encode payload)
  = (4 * ((List.length payload + 2) / 3))%nat /\
  chunk_count (N.of_nat (4 * ((List.length payload + 2) / 3))) (N.of_nat chunk)
  = N.of_nat (List.length (send_encoded chunk payload)).
Proof.
  intros Hc. split; [apply length_b64encode|].
  rewrite <- length_b64encode. symmetry. now apply send_encoded_count.
Qed.

Lemma encoded_length_and_chunk_count_witness :
  List.length (b64encode (repeat x41 256))
  = (4 * ((List.length (repeat x41 256) + 2) / 3))%nat /\
  chunk_count (N.of_nat (4 * ((List.length (repeat x41 256) + 2) / 3)))
    (N.of_nat 64)
  = N.of_nat (List.length (send_encoded 64 (repeat x41 256))).
Proof.
  apply (encoded_length_and_chunk_count 64 (repeat x41 256)).
  apply Nat.lt_0_succ.
Defined.

Lemma b64char_in_alphabet (v : N) : v < 64 -> In (b64char v) alphabet.
Proof.
  intros H. unfold b64char. apply nth_In.
  change (List.length alphabet) with 64%nat. lia.
Qed.

Lemma alphabet_printable :
  forallb (fun c => (0x2B <=? Byte.to_N c) && (Byte.to_N c <=? 0x7A))
    (PAD :: alphabet) = true.
Proof. vm_compute. reflexivity. Qed.

Lemma b64encode_digits (data : bytes) :
  Forall (fun c => In c (PAD :: alphabet)) (b64encode data).
Proof.
  remember (List.length data) as n eqn:Hn. revert data Hn.
  induction n as [n IH] using lt_wf_ind. intros data Hn.
  assert (D : forall v, v < 64 -> In (b64char v) (PAD :: alphabet))
    by (intros v Hv; right; now apply b64char_in_alphabet).
  assert (P : In PAD (PAD :: alphabet)) by now left.
  destruct data as [|x [|y [|z rest]]]; cbn [b64encode].
  - apply Forall_nil.
  - pose proof (to_N_lt x).
    do 2 (apply Forall_cons; [apply D; n_arith|]).
    do 2 (apply Forall_cons; [exact P|]). apply Forall_nil.
  - pose proof (to_N_lt x). pose proof (to_N_lt y).
    do 3 (apply Forall_cons; [apply D; n_arith|]).
    apply Forall_cons; [exact P | apply Forall_nil].
  - pose proof (to_N_lt x). pose proof (to_N_lt y). pose proof (to_N_lt z).
    repeat (apply Forall_cons; [apply D; n_arith|]).
    apply (IH (List.length rest)); [subst n; simpl; lia | reflexivity].
Qed.

(** X11: the encoded text is safe for the raw REPL.  Every byte of
    [b64encode payload] is one of the 64 digits or the padding character,
    hence a printable character between [+] and [z]: none of the control
    bytes the protocol reacts to (Ctrl-A to Ctrl-D, carriage return) is ever
    sent as payload. *)
Theorem encoded_text_is_safe (payload : bytes) :
  Forall (fun c => In c alphabet \/ c = PAD) (b64encode payload) /\
  Forall (fun c => 0x2B <= Byte.to_N c <= 0x7A) (b64encode payload) /\
  (forall ctl, In ctl [x01; x02; x03; x04; x0d] ->
     ~ In ctl (b64encode payload)).
Proof.
  pose proof (b64encode_digits payload) as D.
  pose proof alphabet_printable as T. rewrite forallb_forall in T.
  assert (R : Forall (fun c => 0x2B <= Byte.to_N c <= 0x7A) (b64encode payload)).
  { eapply Forall_impl; [|exact D]. intros c I. specialize (T c I).
    apply andb_true_iff in T. rewrite !N.leb_le in T. exact T. }
  split; [|split; [exact R|]].
  - eapply Forall_impl; [|exact D]. intros c [<- | I]; auto.
  - intros ctl Hctl I. rewrite Forall_forall in R. specialize (R ctl I).
    simpl in Hctl.
    destruct Hctl as [<- | [<- | [<- | [<- | [<- | []]]]]];
      vm_compute in R; destruct R as [R _]; now apply R.
Qed.

(** ** The simulated transfers of quick_test.py *)

(** X12: the rows of [test_device_simulation].  The throughput of a row
    divides by the total time, which is zero exactly for sizes below 64
    bytes: there the row raises [ZeroDivisionError].  Otherwise the count of
    chunks is at least one and is rounded down: the bytes of a last, partial
    chunk are not counted. *)
Theorem simulated_row_defined (size : N) :
  (simulated_row size = None <-> size < 64) /\
  (forall chunks total_time,
     simulated_row size = Some (chunks, total_time) ->
     1 <= chunks /\
     chunks * chunk_size_for size <= size < (chunks + 1) * chunk_size_for size).
Proof.
  unfold simulated_row, simulated_transfer, chunk_size_for.
  destruct (size <=? 256) eqn:A; [|destruct (size <=? 1024) eqn:B].
  - apply N.leb_le in A.
    destruct (size / 64 * 10 =? 0) eqn:E;
      [apply N.eqb_eq in E | apply N.eqb_neq in E]; split.
    + split; [intros _; n_arith | reflexivity].
    + intros chunks t H. discriminate.
    + split; [discriminate | intros H; exfalso; apply E; n_arith].
    + intros chunks t H. injection H as <- <-. n_arith.
  - apply N.leb_gt in A. apply N.leb_le in B.
    destruct (size / 256 * 8 =? 0) eqn:E;
      [apply N.eqb_eq in E | apply N.eqb_neq in E]; split.
    + exfalso. n_arith.
    + exfalso. n_arith.
    + split; [discriminate | intros H; lia].
    + intros chunks t H. injection H as <- <-. n_arith.
  - apply N.leb_gt in A, B.
    destruct (size / 512 * 6 =? 0) eqn:E;
      [apply N.eqb_eq in E | apply N.eqb_neq in E]; split.
    + exfalso. n_arith.
    + exfalso. n_arith.
    + split; [discriminate | intros H; lia].
    + intros chunks t H. injection H as <- <-. n_arith.
Qed.

(** ** The chunk size of test_hardware.py *)

(** X13: the "simplified adaptive logic" of test_hardware.py picks the
    chunk size of quick_test.py exactly for the sizes up to 1024 bytes;
    beyond, it stays at 256 where quick_test.py goes to 512. *)
Theorem simplified_chunk_size_iff (size : N) :
  simplified_chunk_size size = chunk_size_for size <-> size <= 1024.
Proof.
  unfold simplified_chunk_size, chunk_size_for.
  destruct (size <=? 256) eqn:A.
  - apply N.leb_le in A. split; [lia | reflexivity].
  - destruct (size <=? 1024) eqn:B.
    + apply N.leb_le in B. split; [intros _; exact B | reflexivity].
    + apply N.leb_gt in B. split; [discriminate | lia].
Qed.

(** ** The drain and the size of its reads *)

(** X14: what [read_available] returns does not depend on how the waiting
    bytes are split into reads.  Whatever the size of the reads, it returns
    the decoding of all the bytes that were waiting, decoded in one piece: a
    character whose bytes come in two reads is not broken. *)
Theorem read_available_any_read_size (size : nat) (p : pipe) :
  (0 < size)%nat -> idle p <> Fails ->
  exists fuel w',
    read_available fuel (channel_of size p) epoch
    = Some (Done (decode (pending p)), w').
Proof.
  intros Hs Hi.
  pose proof (drain_loop_script (idle p) (channel_of size p)
                (slice_payload size (pending p)) [] epoch) as D.
  rewrite slice_payload_concat in D by exact Hs. cbn [app] in D.
  exists (S (List.length (slice_payload size (pending p)))).
  exists {| clock := clock epoch;
            polls := polls epoch
                     + S (List.length (slice_payload size (pending p))) |}.
  unfold read_available. rewrite D.
  - assert (E : match pending p with [] => [] | _ :: _ => decode (pending p) end
                = decode (pending p)) by (destruct (pending p); reflexivity).
    destruct (idle p); try congruence; now rewrite E.
  - apply slices_nonempty. exact Hs.
  - intros j. reflexivity.
Qed.

Lemma read_available_any_read_size_witness :
  exists fuel w',
    read_available fuel (channel_of 2 euro_pipe) epoch
    = Some (Done (decode (pending euro_pipe)), w').
Proof.
  apply (read_available_any_read_size 2 euro_pipe).
  - apply Nat.lt_0_succ.
  - discriminate.
Defined.

(** The drains of test_duplex_stream.py decode each read on its own, and
    there the euro sign is lost. *)
Example decoding_read_by_read :
  decode (pending euro_pipe) = [0x20AC; 0x41] /\
  List.concat (map decode (slice_payload 2 (pending euro_pipe)))
  = [REPLACEMENT; REPLACEMENT; 0x41].
Proof. split; reflexivity. Qed.

(** ** The label of an error *)

Lemma str_in_char (c : N) (s : text) : str_in [c] s = true <-> In c s.
Proof.
  induction s as [|x s IH]; simpl.
  - split; [discriminate | intros []].
  - rewrite andb_true_r, orb_true_iff, N.eqb_eq, IH.
    split; intros [H | H]; auto.
Qed.

Lemma before_colon_spec (s : text) :
  In COLON s ->
  exists rest, s = before_colon s ++ COLON :: rest /\ ~ In COLON (before_colon s).
Proof.
  induction s as [|c s IH]; intros H; [destruct H|].
  cbn [before_colon]. destruct (c =? COLON) eqn:E.
  - apply N.eqb_eq in E. subst c. exists s. split; [reflexivity | intros []].
  - apply N.eqb_neq in E. destruct H as [H | H]; [congruence|].
    destruct (IH H) as [rest [E1 E2]]. exists rest. split.
    + simpl. now rewrite <- E1.
    + intros [I | I]; [congruence | now apply E2].
Qed.

Lemma take_word_spec (s : text) :
  exists rest,
    s = take_word s ++ rest /\
    forallb (fun c => negb (isspace c)) (take_word s) = true /\
    (rest = [] \/ exists c r, rest = c :: r /\ isspace c = true).
Proof.
  induction s as [|c s [rest [E [W R]]]].
  - exists []. simpl. auto.
  - cbn [take_word]. destruct (isspace c) eqn:S.
    + exists (c :: s). split; [reflexivity|]. split; [reflexivity|].
      right. now exists c, s.
    + exists rest. split; [simpl; now rewrite <- E|]. split; [|exact R].
      simpl. now rewrite S, W.
Qed.

Lemma first_word_spec (s : text) :
  match first_word s with
  | Some word =>
      exists ws rest,
        s = ws ++ word ++ rest /\ forallb isspace ws = true /\ word <> [] /\
        forallb (fun c => negb (isspace c)) word = true /\
        (rest = [] \/ exists c r, rest = c :: r /\ isspace c = true)
  | None => forallb isspace s = true
  end.
Proof.
  induction s as [|c s IH]; [reflexivity|].
  cbn [first_word]. destruct (isspace c) eqn:S.
  - destruct (first_word s) as [word|].
    + destruct IH as [ws [rest [E [W H]]]].
      exists (c :: ws), rest. split; [simpl; now rewrite <- E|].
      split; [simpl; now rewrite S, W | exact H].
    + simpl. now rewrite S, IH.
  - destruct (take_word_spec s) as [rest [E [W R]]].
    exists [], rest. split; [simpl; now rewrite <- E|].
    split; [reflexivity|]. split; [discriminate|].
    split; [simpl; now rewrite S, W | exact R].
Qed.

(** X17: the label printed for an error.  For an error with a colon it
    is the text before the first colon; for an error without one it is its
    first word, whitespace around it excluded; and for an error without
    colon and without a word (empty or all whitespace) the expression
    raises [IndexError]. *)
Theorem error_pattern_spec (error : text) :
  match error_pattern error with
  | Some pattern =>
      (exists rest, error = pattern ++ COLON :: rest /\ ~ In COLON pattern) \/
      (~ In COLON error /\
       exists ws rest,
         error = ws ++ pattern ++ rest /\ forallb isspace ws = true /\
         pattern <> [] /\
         forallb (fun c => negb (isspace c)) pattern = true /\
         (rest = [] \/ exists c r, rest = c :: r /\ isspace c = true))
  | None => ~ In COLON error /\ forallb isspace error = true
  end.
Proof.
  unfold error_pattern. destruct (str_in [COLON] error) eqn:C.
  - left. apply str_in_char in C. now apply before_colon_spec.
  - assert (N : ~ In COLON error).
    { intros I. apply str_in_char in I. congruence. }
    pose proof (first_word_spec error) as W.
    destruct (first_word error) as [word|]; [right|]; split; assumption.
Qed.

(** The labels of the seven errors the script lists: the traceback is
    labelled by its first line, not by the [NameError] it ends with. *)
Example labels_of_actual_errors :
  map error_pattern actual_errors
  = map Some [lit "Traceback (most recent call last)"; lit "SyntaxError";
              lit "MemoryError"; lit "OSError"; lit "ImportError";
              lit "KeyboardInterrupt"; lit "RuntimeError"].
Proof. vm_compute. reflexivity. Qed.

(** ** The search for a device *)

(** X18: the search of [main] in test_hardware.py.  It succeeds exactly
    when one of the devices exists and passes the test; only devices that
    exist are opened; and on success the device opened last is the first
    that passes, all those opened before it having failed: no device after
    it is touched. *)
Theorem try_devices_spec
    (path_exists test_device_communication : string -> bool)
    (devices : list string) :
  let (success, opened) :=
    try_devices path_exists test_device_communication devices in
  (success = true <->
   exists d, In d devices /\ path_exists d = true /\
             test_device_communication d = true) /\
  (forall d, In d opened -> In d devices /\ path_exists d = true) /\
  (success = true ->
   exists failed d,
     opened = failed ++ [d] /\ test_device_communication d = true /\
     forall x, In x failed -> test_device_communication x = false) /\
  (success = false ->
   forall x, In x opened -> test_device_communication x = false).
Proof.
  induction devices as [|device rest IH]; cbn [try_devices].
  - split; [|split; [|split]].
    + split; [discriminate | intros [d [[] _]]].
    + intros d [].
    + discriminate.
    + intros _ x [].
  - destruct (try_devices path_exists test_device_communication rest)
      as [success opened].
    destruct IH as [IH1 [IH2 [IH3 IH4]]].
    destruct (path_exists device) eqn:E;
      [destruct (test_device_communication device) eqn:T|].
    + split; [|split; [|split]].
      * split; [intros _; exists device; simpl; auto | reflexivity].
      * intros d [<- | []]. simpl. auto.
      * intros _. exists [], device. split; [reflexivity|].
        split; [exact T | intros x []].
      * discriminate.
    + split; [|split; [|split]].
      * rewrite IH1. split.
        -- intros [d [I H]]. exists d. simpl. auto.
        -- intros [d [[<- | I] [H1 H2]]]; [congruence | now exists d].
      * intros d [<- | I]; [simpl; auto|].
        destruct (IH2 d I). simpl. auto.
      * intros S. destruct (IH3 S) as [failed [d [O [Td F]]]].
        exists (device :: failed), d. split; [simpl; now rewrite O|].
        split; [exact Td|]. intros x [<- | I]; [exact T | now apply F].
      * intros S x [<- | I]; [exact T | now apply IH4].
    + split; [|split; [|split]].
      * rewrite IH1. split.
        -- intros [d [I H]]. exists d. simpl. auto.
        -- intros [d [[<- | I] [H1 H2]]]; [congruence | now exists d].
      * intros d I. destruct (IH2 d I). simpl. auto.
      * exact IH3.
      * exact IH4.
Qed.

(** ** The drain with a bare [except:] *)

Lemma drain_quietly_reads (p : blocking_pipe) :
  forall (k fuel from : nat),
  (forall i, (i < k)%nat -> brings_data (p (from + i)%nat)) ->
  drain_quietly (k + fuel) p from = drain_quietly fuel p (from + k).
Proof.
  induction k as [|k IH]; intros fuel from H.
  - now rewrite Nat.add_0_r.
  - destruct (H 0%nat) as [d [data E]]; [lia|]. rewrite Nat.add_0_r in E.
    change (S k + fuel)%nat with (S (k + fuel)).
    cbn [drain_quietly]. rewrite E. rewrite IH.
    + now replace (S from + k)%nat with (from + S k)%nat by lia.
    + intros i Hi. replace (S from + i)%nat with (from + S i)%nat by lia.
      apply H. lia.
Qed.

(** X19: the drain of debug_csharp_protocol.py and test_subprocess_fix.py
    never raises, and on the blocking pipe these scripts read it is left
    only at a read that returns nothing or raises.  It reads on as long as
    the reads bring data: it ends, after [k + 1] reads, exactly when the
    first read that brings no data comes back empty (end of file) or with an
    error, and it hangs after [k] reads exactly when that read blocks.  On
    a pipe whose reads bring data or block, the pipe of an interpreter that
    keeps running, the drain is never left. *)
Theorem drain_quietly_outcome (p : blocking_pipe) (from : nat) :
  (forall r,
     (exists fuel, drain_quietly fuel p from = Some r) <->
     exists k,
       (forall i, (i < k)%nat -> brings_data (p (from + i)%nat)) /\
       (r = DrainEnds (from + S k) /\ brings_none (p (from + k)%nat) \/
        r = DrainBlocks (from + k) /\ p (from + k)%nat = Blocks)) /\
  ((forall i, brings_data (p i) \/ p i = Blocks) ->
   forall fuel n, drain_quietly fuel p from <> Some (DrainEnds n)).
Proof.
  assert (ONLY : forall fuel from0 r,
    drain_quietly fuel p from0 = Some r ->
    exists k,
      (forall i, (i < k)%nat -> brings_data (p (from0 + i)%nat)) /\
      (r = DrainEnds (from0 + S k) /\ brings_none (p (from0 + k)%nat) \/
       r = DrainBlocks (from0 + k) /\ p (from0 + k)%nat = Blocks)).
  { induction fuel as [|fuel IH]; intros from0 r H; [discriminate|].
    cbn [drain_quietly] in H.
    destruct (p from0) as [[|d data] | e |] eqn:E.
    2:{ apply IH in H. destruct H as [k [F R]]. exists (S k). split.
        - intros [|i] Hi.
          + rewrite Nat.add_0_r, E. now exists d, data.
          + replace (from0 + S i)%nat with (S from0 + i)%nat by lia.
            apply F. lia.
        - replace (from0 + S (S k))%nat with (S from0 + S k)%nat by lia.
          replace (from0 + S k)%nat with (S from0 + k)%nat by lia.
          exact R. }
    all: injection H as <-; exists 0%nat;
      (split; [intros i Hi; lia|]);
      rewrite Nat.add_0_r, ?Nat.add_1_r, E; unfold brings_none; eauto 6. }
  split.
  - intros r. split.
    + intros [fuel H]. now apply ONLY in H.
    + intros [k [F R]]. exists (k + 1)%nat.
      rewrite drain_quietly_reads by exact F. cbn [drain_quietly].
      destruct R as [[-> [E | [e E]]] | [-> E]]; rewrite E;
        try reflexivity;
        now replace (S (from + k)) with (from + S k)%nat by lia.
  - intros L fuel n H. apply ONLY in H.
    destruct H as [k [_ [[_ [E | [e E]]] | [E _]]]];
      try discriminate;
      destruct (L (from + k)%nat) as [[d [data D]] | D]; congruence.
Qed.

(** The startup drain on the prompt of an interpreter that waits for
    input: one read brings the prompt, the next one blocks. *)
Example drain_of_a_waiting_interpreter :
  drain_quietly 2 waiting_interpreter 0 = Some (DrainBlocks 1).
Proof. reflexivity. Qed.

(** ** The device test of test_hardware.py *)

Lemma decode_ignore_low (b0 : byte) (r : bytes) :
  Byte.to_N b0 < 128 ->
  decode_ignore (b0 :: r) = Byte.to_N b0 :: decode_ignore r.
Proof.
  intros H. simpl. apply N.ltb_lt in H. now rewrite H.
Qed.

(** With the ill-formed sequences dropped, a byte outside ASCII gives
    nothing or one code point outside ASCII. *)
Lemma decode_ignore_high (b0 : byte) (r : bytes) :
  high b0 ->
  exists hi k,
    decode_ignore (b0 :: r) = hi ++ decode_ignore (skipn k r) /\
    Forall (fun x => 128 <= x) hi /\
    Forall high (firstn k r).
Proof.
  unfold high. intros H.
  assert (E0 : (Byte.to_N b0 <? 128) = false) by (apply N.ltb_ge; lia).
  assert (STAY : forall t, exists hi k,
            decode_ignore t = hi ++ decode_ignore (skipn k t) /\
            Forall (fun x => 128 <= x) hi /\ Forall high (firstn k t)).
  { intros t. exists [], 0%nat. simpl. auto. }
  assert (LAST : exists hi k,
            @nil N = hi ++ decode_ignore (skipn k (@nil byte)) /\
            Forall (fun x => 128 <= x) hi /\
            Forall high (firstn k (@nil byte))).
  { exists [], 0%nat. simpl. auto. }
  simpl decode_ignore. rewrite E0.
  destruct (Byte.to_N b0 <? 194) eqn:E1; [apply STAY|].
  apply N.ltb_ge in E1.
  destruct (Byte.to_N b0 <? 224) eqn:E2.
  { destruct r as [|b1 r1]; [apply LAST|].
    destruct (is_continuation (Byte.to_N b1)) eqn:C1; [|apply STAY].
    exists [cp2 (Byte.to_N b0) (Byte.to_N b1)], 1%nat. simpl.
    apply is_continuation_high in C1. unfold high in C1.
    split; [reflexivity|]. split; [|auto].
    constructor; [unfold cp2; lia | constructor]. }
  apply N.ltb_ge in E2.
  destruct (Byte.to_N b0 <? 240) eqn:E3.
  { destruct r as [|b1 r1]; [apply LAST|].
    destruct (second_of_3 (Byte.to_N b0) (Byte.to_N b1)) eqn:C1; [|apply STAY].
    pose proof (second_of_3_high _ _ C1) as H1.
    destruct r1 as [|b2 r2].
    { exists [], 1%nat. simpl. auto. }
    destruct (is_continuation (Byte.to_N b2)) eqn:C2.
    - exists [cp3 (Byte.to_N b0) (Byte.to_N b1) (Byte.to_N b2)], 2%nat. simpl.
      apply is_continuation_high in C2.
      split; [reflexivity|]. split; [|auto].
      constructor; [|constructor].
      unfold second_of_3, is_continuation in C1.
      rewrite !andb_true_iff, negb_true_iff, !N.leb_le in C1.
      destruct C1 as [_ C1]. unfold cp3, high in *.
      destruct (Byte.to_N b1 <? 160) eqn:L.
      + apply N.eqb_neq in C1. lia.
      + apply N.ltb_ge in L. lia.
    - exists [], 1%nat. simpl. auto. }
  apply N.ltb_ge in E3.
  destruct (Byte.to_N b0 <? 245) eqn:E4; [|apply STAY].
  destruct r as [|b1 r1]; [apply LAST|].
  destruct (second_of_4 (Byte.to_N b0) (Byte.to_N b1)) eqn:C1; [|apply STAY].
  pose proof (second_of_4_high _ _ C1) as H1.
  destruct r1 as [|b2 r2].
  { exists [], 1%nat. simpl. auto. }
  destruct (is_continuation (Byte.to_N b2)) eqn:C2.
  2:{ exists [], 1%nat. simpl. auto. }
  pose proof (is_continuation_high _ C2) as H2.
  destruct r2 as [|b3 r3].
  { exists [], 2%nat. simpl. auto. }
  destruct (is_continuation (Byte.to_N b3)) eqn:C3.
  2:{ exists [], 2%nat. simpl. auto. }
  pose proof (is_continuation_high _ C3) as H3.
  exists [cp4 (Byte.to_N b0) (Byte.to_N b1) (Byte.to_N b2) (Byte.to_N b3)],
         3%nat.
  simpl. split; [reflexivity|]. split; [|auto].
  constructor; [|constructor].
  unfold second_of_4, is_continuation in C1.
  rewrite !andb_true_iff, negb_true_iff, !N.leb_le in C1.
  destruct C1 as [_ C1]. unfold cp4, high in *.
  destruct (Byte.to_N b1 <? 144) eqn:L.
  - apply N.eqb_neq in C1. lia.
  - apply N.ltb_ge in L. lia.
Qed.

Lemma not_in_high_codes (c : N) (l : bytes) :
  c < 128 -> Forall high l -> ~ In c (codes l).
Proof.
  intros Hc F I. unfold codes in I. apply in_map_iff in I.
  destruct I as [x [E Ix]]. rewrite Forall_forall in F.
  specialize (F x Ix). unfold high in F. lia.
Qed.

(** An ASCII character is in the text decoded with [errors='ignore']
    exactly when its byte is in the buffer. *)
Lemma in_decode_ignore (c : N) (bs : bytes) :
  c < 128 -> (In c (decode_ignore bs) <-> In c (codes bs)).
Proof.
  intros Hc. remember (List.length bs) as n eqn:Hn.
  revert bs Hn. induction n as [n IH] using lt_wf_ind. intros bs Hn.
  destruct bs as [|b0 r]; [reflexivity|].
  destruct (byte_low_or_high b0) as [L | Hh].
  - rewrite decode_ignore_low by exact L.
    change (codes (b0 :: r)) with (Byte.to_N b0 :: codes r). simpl.
    rewrite (IH (List.length r)); [reflexivity | simpl in Hn; lia | reflexivity].
  - destruct (decode_ignore_high b0 r Hh) as [hi [k [E [Fh Fk]]]].
    rewrite E, in_app_iff.
    rewrite (IH (List.length (skipn k r)));
      [| rewrite length_skipn; simpl in Hn; lia | reflexivity].
    change (codes (b0 :: r)) with (Byte.to_N b0 :: codes r).
    rewrite <- (firstn_skipn k r) at 2. rewrite codes_app. simpl.
    rewrite in_app_iff. unfold high in Hh.
    pose proof (not_in_high_codes c (firstn k r) Hc Fk) as NK.
    rewrite Forall_forall in Fh.
    split.
    + intros [I | I]; [specialize (Fh c I); lia | auto].
    + intros [I | [I | I]]; [lia | contradiction | auto].
Qed.

Lemma char_in_decode_ignore (x : byte) (bs : bytes) :
  Byte.to_N x < 128 ->
  (str_in [Byte.to_N x] (decode_ignore bs) = true <-> In x bs).
Proof.
  intros H. rewrite str_in_char, in_decode_ignore by exact H.
  unfold codes. rewrite in_map_iff. split.
  - intros [y [E I]]. apply to_N_inj in E. now subst y.
  - intros I. now exists x.
Qed.

(** X20: the verdict of [test_device_communication].  The test writes
    Ctrl-B, to leave the raw REPL, exactly when the port opens, each of the
    six writes succeeds, the first read returns bytes that contain the
    prompt byte or decode to a text containing [raw REPL], and the read made
    after the code does not fail; it answers [True] exactly when, moreover,
    the port closes without error.  What the second read returns, the
    answer to [2 + 3], has no bearing on the verdict. *)
Theorem device_test_verdict (p : port) (ch : channel) (w0 : world) :
  (In x02 (snd (snd (test_device_communication p ch w0))) <->
   reaches_exit p ch w0) /\
  (fst (test_device_communication p ch w0) = true <->
   reaches_exit p ch w0 /\ closes p = true).
Proof.
  assert (W : forall i, (i < 6)%nat -> accepts p i = false ->
              ~ reaches_exit p ch w0).
  { intros i Hi E [_ [A _]]. rewrite (A i Hi) in E. discriminate. }
  assert (NO : forall (w : world) (sent : bytes),
    ~ In x02 sent -> ~ reaches_exit p ch w0 ->
    (In x02 (snd (snd (false, (w, sent)))) <-> reaches_exit p ch w0) /\
    (fst (false, (w, sent)) = true <->
     reaches_exit p ch w0 /\ closes p = true)).
  { intros w sent N R. cbn [fst snd]. split; split; intros H;
      try tauto; try discriminate. }
  assert (N02 : forall sent : bytes,
    existsb (Byte.eqb x02) sent = false -> ~ In x02 sent).
  { intros sent E I.
    assert (T : existsb (Byte.eqb x02) sent = true).
    { apply existsb_exists. exists x02. split; [exact I | reflexivity]. }
    congruence. }
  unfold test_device_communication, poll, pause. cbn [clock polls].
  destruct (opens p) eqn:Op; cbn [negb].
  2:{ apply NO; [apply N02; reflexivity|].
      intros [H _]. congruence. }
  destruct (accepts p 0) eqn:A0; cbn [negb].
  2:{ apply NO; [apply N02; reflexivity | apply (W 0%nat); [lia | exact A0]]. }
  cbv zeta.
  destruct (accepts p 1) eqn:A1; cbn [negb].
  2:{ apply NO; [apply N02; reflexivity | apply (W 1%nat); [lia | exact A1]]. }
  destruct (accepts p 2) eqn:A2; cbn [negb].
  2:{ apply NO; [apply N02; reflexivity | apply (W 2%nat); [lia | exact A2]]. }
  destruct (outcome (ch (polls w0))) as [data | e] eqn:O1.
  2:{ apply NO; [apply N02; reflexivity|].
      intros [_ [_ [d [a [H _]]]]]. congruence. }
  assert (P : str_in (lit ">") (decode_ignore data) = true <-> In x3e data).
  { apply (char_in_decode_ignore x3e data). vm_compute. reflexivity. }
  unfold entered_raw_repl.
  destruct (str_in (lit ">") (decode_ignore data)
            || str_in (lit "raw REPL") (decode_ignore data)) eqn:B.
  2:{ apply orb_false_iff in B. destruct B as [B1 B2].
      apply NO; [apply N02; reflexivity|].
      intros [_ [_ [d [a [H [[K | K] _]]]]]]; rewrite O1 in H;
        injection H as <-.
      - apply P in K. congruence.
      - congruence. }
  apply orb_true_iff in B.
  destruct (accepts p 3) eqn:A3; cbn [negb].
  2:{ apply NO; [apply N02; reflexivity | apply (W 3%nat); [lia | exact A3]]. }
  destruct (accepts p 4) eqn:A4; cbn [negb].
  2:{ apply NO; [apply N02; reflexivity | apply (W 4%nat); [lia | exact A4]]. }
  destruct (outcome (ch (S (polls w0)))) as [answer | e] eqn:O2.
  2:{ apply NO; [apply N02; reflexivity|].
      intros [_ [_ [d [a [_ [_ H]]]]]]. congruence. }
  destruct (accepts p 5) eqn:A5; cbn [negb].
  2:{ apply NO; [apply N02; reflexivity | apply (W 5%nat); [lia | exact A5]]. }
  assert (R : reaches_exit p ch w0).
  { split; [exact Op|]. split.
    - intros i Hi.
      destruct i as [|[|[|[|[|[|i]]]]]]; try assumption. lia.
    - exists data, answer. split; [exact O1|]. split; [|exact O2].
      destruct B as [B | B]; [left; now apply P | now right]. }
  cbn [fst snd]. split; split.
  - intros _. exact R.
  - intros _. apply in_or_app. right. now left.
  - intros H. now split.
  - intros [_ H]. exact H.
Qed.

(** A port that takes every write but the last, and one that fails to
    close: the device answers as it should and the test fails. *)
Example device_test_examples :
  fst (test_device_communication sound_port answering_device epoch) = true /\
  fst (test_device_communication
         {| opens := true; accepts := fun i => negb (Nat.eqb i 5);
            closes := true |} answering_device epoch) = false /\
  fst (test_device_communication
         {| opens := true; accepts := fun _ => true; closes := false |}
         answering_device epoch) = false.
Proof. vm_compute. auto. Qed.

(** Dropping ill-formed bytes can bring the two halves of a needle
    together: here the text contains [raw REPL] and the bytes do not. *)
Example ignore_joins_text :
  str_in (lit "raw REPL") (decode_ignore (b "raw" ++ [xff] ++ b " REPL")) = true /\
  str_in (lit "raw REPL") (codes (b "raw" ++ [xff] ++ b " REPL")) = false /\
  str_in (lit "raw REPL") (decode (b "raw" ++ [xff] ++ b " REPL")) = false.
Proof. repeat split. Qed.
